(** * replacer: recursive search-and-replace over a directory tree

    A shallow embedding of the Go program [replacer] (package [main]) and
    of the parts of the Go standard library it calls, followed by the
    properties of the walker and of the two file rewriters.

    Two revisions of the program are embedded:
    - [MainGo]  : [src/main.go], where [walk] recurses on itself from the
                  callback of [filepath.Walk];
    - [Part000] : [src/unnamed/part_000], where [walk] wraps [walkDir].
    The two rewriters [replaceInFile] and [replaceInLargeFile] have the
    same body in both revisions (part_000 only adds a deferred
    [input.Close()]), so they are embedded once. *)

From Stdlib Require Import ZArith Ascii String Lia.
From stdpp Require Import base list strings gmap stringmap.

Local Open Scope Z_scope.

(** ** Bytes and Go strings

    A Go [string] is an immutable sequence of bytes.  It is embedded as a
    list of 8-bit characters; [B] turns a literal into such a list. *)

Abbreviation byte := ascii.
Abbreviation gostring := (list ascii).

Definition B (s : string) : gostring := list_ascii_of_string s.

Definition byte_val (c : byte) : Z := Z.of_N (N_of_ascii c).

(** The bytes ['\n'] and ['\r']. *)
Definition newline : byte := "010"%char.
Definition carriage_return : byte := "013"%char.

(** [len(s)] as a Go [int]. *)
Definition len (s : gostring) : Z := Z.of_nat (length s).

(** [s[i:j]] and [s[i:]] for in-range indices. *)
Definition slice (s : gostring) (i j : Z) : gostring :=
  take (Z.to_nat (j - i)) (drop (Z.to_nat i) s).

Definition slice_from (s : gostring) (i : Z) : gostring :=
  drop (Z.to_nat i) s.

(** ** Package unicode/utf8 *)
Module utf8.

Definition RuneSelf : Z := 0x80.
Definition locb : Z := 0x80.
Definition hicb : Z := 0xBF.

(** Entries of the table [first]: the low three bits are the length of
    the encoding, the high four bits index [acceptRanges]. *)
Definition xx : Z := 0xF1.
Definition as_ : Z := 0xF0.
Definition s1 : Z := 0x02.
Definition s2 : Z := 0x13.
Definition s3 : Z := 0x03.
Definition s4 : Z := 0x23.
Definition s5 : Z := 0x34.
Definition s6 : Z := 0x04.
Definition s7 : Z := 0x44.

(** The 256-entry table [first], row by row. *)
Definition first (c : Z) : Z :=
  if c <? 0x80 then as_          (* 0x00-0x7F *)
  else if c <? 0xC2 then xx      (* 0x80-0xBF, 0xC0-0xC1 *)
  else if c <? 0xE0 then s1      (* 0xC2-0xDF *)
  else if c =? 0xE0 then s2
  else if c <? 0xED then s3      (* 0xE1-0xEC *)
  else if c =? 0xED then s4
  else if c <? 0xF0 then s3      (* 0xEE-0xEF *)
  else if c =? 0xF0 then s5
  else if c <? 0xF4 then s6      (* 0xF1-0xF3 *)
  else if c =? 0xF4 then s7
  else xx.                       (* 0xF5-0xFF *)

(** [acceptRanges], as a pair (lo, hi). *)
Definition acceptRanges (i : Z) : Z * Z :=
  if i =? 0 then (locb, hicb)
  else if i =? 1 then (0xA0, hicb)
  else if i =? 2 then (locb, 0x9F)
  else if i =? 3 then (0x90, hicb)
  else if i =? 4 then (locb, 0x8F)
  else (0, 0).

(** The width returned by [DecodeRuneInString] (its second result). *)
Definition DecodeRuneInString_width (s : gostring) : Z :=
  match s with
  | [] => 0
  | c0 :: t =>
    let x := first (byte_val c0) in
    if as_ <=? x then 1
    else
      let sz := Z.land x 7 in
      let accept := acceptRanges (Z.shiftr x 4) in
      if len s <? sz then 1
      else match t with
      | [] => 1
      | c1 :: t1 =>
        if (byte_val c1 <? fst accept) || (snd accept <? byte_val c1) then 1
        else if sz <=? 2 then 2
        else match t1 with
        | [] => 1
        | c2 :: t2 =>
          if (byte_val c2 <? locb) || (hicb <? byte_val c2) then 1
          else if sz <=? 3 then 3
          else match t2 with
          | [] => 1
          | c3 :: _ =>
            if (byte_val c3 <? locb) || (hicb <? byte_val c3) then 1
            else 4
          end
        end
      end
  end.

(** One step of the loop of [RuneCountInString]: the amount added to
    the index [i] when the remaining input [s[i:]] is [r]. *)
Definition RuneCount_step (r : gostring) : Z :=
  match r with
  | [] => 0
  | c :: t =>
    if byte_val c <? RuneSelf then 1
    else
      let x := first (byte_val c) in
      if x =? xx then 1
      else
        let size := Z.land x 7 in
        if len r <? size then 1
        else
          let accept := acceptRanges (Z.shiftr x 4) in
          match t with
          | [] => 1
          | c1 :: t1 =>
            if (byte_val c1 <? fst accept) || (snd accept <? byte_val c1) then 1
            else if size =? 2 then size
            else match t1 with
            | [] => 1
            | c2 :: t2 =>
              if (byte_val c2 <? locb) || (hicb <? byte_val c2) then 1
              else if size =? 3 then size
              else match t2 with
              | [] => 1
              | c3 :: _ =>
                if (byte_val c3 <? locb) || (hicb <? byte_val c3) then 1
                else size
              end
            end
          end
  end.

(** [for i := 0; i < ns; n++ { ... i += size }]: the loop runs on the
    remaining input; [fuel] bounds the iterations (each consumes at
    least one byte, so [length s] is enough). *)
Fixpoint RuneCount_loop (fuel : nat) (r : gostring) (n : Z) : Z :=
  match fuel with
  | O => n
  | S f =>
    match r with
    | [] => n
    | _ => RuneCount_loop f (slice_from r (RuneCount_step r)) (n + 1)
    end
  end.

Definition RuneCountInString (s : gostring) : Z :=
  RuneCount_loop (length s) s 0.

End utf8.

(** ** Package strings *)
Module strings.

(** [HasPrefix]: [len(s) >= len(prefix) && s[:len(prefix)] == prefix]. *)
Definition HasPrefix (s prefix : gostring) : bool :=
  bool_decide (len prefix <= len s) &&
  bool_decide (slice s 0 (len prefix) = prefix).

(** [Index] returns the index of the first instance of [substr] in [s],
    or -1 if [substr] is not present. *)
Fixpoint Index_from (i : Z) (s substr : gostring) : Z :=
  if HasPrefix s substr then i
  else match s with
       | [] => -1
       | _ :: s' => Index_from (i + 1) s' substr
       end.

Definition Index (s substr : gostring) : Z := Index_from 0 s substr.

(** The general loop of [Count]:
    [for { i := Index(s, substr); if i == -1 { return n }; n++;
           s = s[i+len(substr):] }].
    Every round drops at least [len(substr) >= 1] bytes, so [length s]
    rounds are enough. *)
Fixpoint Count_loop (fuel : nat) (s substr : gostring) (n : Z) : Z :=
  let i := Index s substr in
  if i =? -1 then n
  else match fuel with
       | O => n + 1
       | S f => Count_loop f (slice_from s (i + len substr)) substr (n + 1)
       end.

(** [Count] counts the non-overlapping instances of [substr] in [s]; for
    an empty [substr] it is the number of runes plus one.  (The
    single-byte case of the library is a faster path with the same
    result as the general loop.) *)
Definition Count (s substr : gostring) : Z :=
  if len substr =? 0 then utf8.RuneCountInString s + 1
  else Count_loop (length s) s substr 0.

(** The replacement loop of [Replace]:
    [for i := 0; i < n; i++ { ... }], with the builder [b] and the index
    [start] as loop state; [k] is the number of rounds left. *)
Fixpoint Replace_loop (k : nat) (s old new : gostring)
         (i start : Z) (b : gostring) : Z * gostring :=
  match k with
  | O => (start, b)
  | S k' =>
    let j :=
      if len old =? 0 then
        if 0 <? i
        then start + utf8.DecodeRuneInString_width (slice_from s start)
        else start
      else start + Index (slice_from s start) old in
    let b := b ++ slice s start j in
    let b := b ++ new in
    Replace_loop k' s old new (i + 1) (j + len old) b
  end.

Definition Replace (s old new : gostring) (n : Z) : gostring :=
  if bool_decide (old = new) || (n =? 0) then s
  else
    let m := Count s old in
    if m =? 0 then s
    else
      let n := if (n <? 0) || (m <? n) then m else n in
      let '(start, b) := Replace_loop (Z.to_nat n) s old new 0 0 [] in
      b ++ slice_from s start.

Definition ReplaceAll (s old new : gostring) : gostring :=
  Replace s old new (-1).

End strings.

(** ** Errors

    The Go [error] values the program can return.  A nil error is [None]
    of type [option error]. *)
Inductive error : Type :=
  | context_Canceled
  | context_DeadlineExceeded
  | bufio_ErrTooLong                 (* "bufio.Scanner: token too long" *)
  | fs_ErrNotExist (path : string)   (* "no such file or directory" *)
  | syscall_EISDIR (path : string)   (* "is a directory" *)
  | filepath_SkipDir
  | filepath_SkipAll
  | PathError (msg : string).        (* any other error of the platform *)

Global Instance error_eq_dec : EqDecision error.
Proof. solve_decision. Defined.

(** ** Package context

    A context is a one-shot signal: once done it stays done.  What a
    sequential caller can observe of it is the first poll that finds it
    done.  [fires_at = Some k] says that polls number [0 .. k-1] find the
    context alive and every later poll finds it done ([Some 0]: the
    deadline has expired before the first poll); [None] says that it never
    fires while the caller runs.  [cause] is what [ctx.Err()] returns
    once it is done. *)
Record Context : Type := mkContext {
  fires_at : option nat;
  cause : error
}.

(** [select { case <-ctx.Done(): ...; default: }] at poll number [k]. *)
Definition ctx_Done (ctx : Context) (k : nat) : bool :=
  match fires_at ctx with
  | Some n => bool_decide (n ≤ k)%nat
  | None => false
  end.

Definition ctx_Err (ctx : Context) : error := cause ctx.

(** ** Package bufio *)
Module bufio.

Definition MaxScanTokenSize : Z := 64 * 1024.
Definition defaultBufSize : Z := 4096.

(** [bytes.IndexByte]. *)
Fixpoint IndexByte_from (i : Z) (data : gostring) (c : byte) : Z :=
  match data with
  | [] => -1
  | x :: data' => if bool_decide (x = c) then i else IndexByte_from (i + 1) data' c
  end.

Definition IndexByte (data : gostring) (c : byte) : Z := IndexByte_from 0 data c.

(** [dropCR] drops a terminal carriage return from the data. *)
Definition dropCR (data : gostring) : gostring :=
  if (0 <? len data) && bool_decide (data !! Z.to_nat (len data - 1) = Some carriage_return)
  then slice data 0 (len data - 1)
  else data.

(** [ScanLines], the default split function: (advance, token), where a
    nil token is [None]. *)
Definition ScanLines (data : gostring) (atEOF : bool) : Z * option gostring :=
  if atEOF && (len data =? 0) then (0, None)
  else
    let i := IndexByte data newline in
    if 0 <=? i then (i + 1, Some (dropCR (slice data 0 i)))
    else if atEOF then (len data, Some (dropCR data))
    else (0, None).

(** The result of one call of [Scanner.Scan]: a token (Scan returned
    true, [Text()] is the token) together with the input left, or the
    end of the scan with what [Err()] returns afterwards. *)
Inductive scan : Type :=
  | Token (text : gostring) (rest : gostring)
  | Stop (err : option error).

(** [Scan] on a reader that still has [r] to deliver.  The scanner hands
    [split] a growing window of the unread input, doubling its buffer up
    to [MaxScanTokenSize]; [atEOF] is set once the reader has reported
    the end of the input, which needs room left in the buffer.  Since
    [ScanLines] returns the same token on every window that holds the
    first newline, it suffices to call it on the largest window.  When
    the full buffer holds no token the scan stops with [ErrTooLong]. *)
Definition Scan (r : gostring) : scan :=
  let atEOF := len r <? MaxScanTokenSize in
  let window := slice r 0 MaxScanTokenSize in
  match ScanLines window atEOF with
  | (advance, Some token) => Token token (slice_from r advance)
  | (_, None) => if atEOF then Stop None else Stop (Some bufio_ErrTooLong)
  end.

(** A [bufio.Writer] on a file: the name of the file and the bytes
    buffered and not yet written to it. *)
Record Writer : Type := mkWriter {
  wr : string;
  buf : gostring
}.

Definition NewWriter (name : string) : Writer := mkWriter name [].

Definition Buffered (b : Writer) : Z := len (buf b).
Definition Available (b : Writer) : Z := defaultBufSize - Buffered b.

End bufio.

(** ** The file system seen by the rewriters

    A finite map from path names to what is stored there.  Permissions
    are not modelled: every existing file can be read and written, the
    scratch directory accepts new files, and writes do not fail. *)
Inductive inode : Type :=
  | Regular (data : gostring)
  | Directory.

Global Instance inode_eq_dec : EqDecision inode.
Proof. solve_decision. Defined.

Abbreviation filesystem := (gmap string inode).

Module os.

(** [os.Open(path)]: opening for reading succeeds on anything that
    exists. *)
Definition Open (path : string) (fs : filesystem) : option error :=
  match fs !! path with
  | Some _ => None
  | None => Some (fs_ErrNotExist path)
  end.

(** [os.OpenFile(path, os.O_RDWR, 0644)]: a directory cannot be opened
    for writing. *)
Definition OpenFile_RDWR (path : string) (fs : filesystem) : option error :=
  match fs !! path with
  | Some (Regular _) => None
  | Some Directory => Some (syscall_EISDIR path)
  | None => Some (fs_ErrNotExist path)
  end.

(** Reading an open file to its end ([io.ReadAll], or the reads of a
    scanner): reading a directory fails. *)
Definition read (path : string) (fs : filesystem) : gostring + error :=
  match fs !! path with
  | Some (Regular data) => inl data
  | Some Directory => inr (syscall_EISDIR path)
  | None => inr (fs_ErrNotExist path)
  end.

(** [os.WriteFile(path, data, 0644)] creates or truncates the file and
    writes [data]. *)
Definition WriteFile (path : string) (data : gostring) (fs : filesystem)
  : option error * filesystem :=
  match fs !! path with
  | Some Directory => (Some (syscall_EISDIR path), fs)
  | _ => (None, <[path := Regular data]> fs)
  end.

(** [os.CreateTemp("", "replacer")] creates a new empty file whose name
    starts with the pattern and is not in use. *)
Definition TempName (fs : filesystem) : string :=
  fresh_string "/tmp/replacer" fs.

Definition CreateTemp (fs : filesystem) : string * filesystem :=
  let name := TempName fs in
  (name, <[name := Regular []]> fs).

(** [File.Write] at the end of an open file. *)
Definition append (name : string) (data : gostring) (fs : filesystem) : filesystem :=
  match fs !! name with
  | Some (Regular old) => <[name := Regular (old ++ data)]> fs
  | _ => fs
  end.

Definition Remove (name : string) (fs : filesystem) : option error * filesystem :=
  match fs !! name with
  | Some _ => (None, delete name fs)
  | None => (Some (fs_ErrNotExist name), fs)
  end.

(** [os.Rename(oldpath, newpath)] replaces [newpath] unless it is a
    directory. *)
Definition Rename (oldpath newpath : string) (fs : filesystem)
  : option error * filesystem :=
  match fs !! oldpath with
  | None => (Some (fs_ErrNotExist oldpath), fs)
  | Some f =>
    match fs !! newpath with
    | Some Directory => (Some (syscall_EISDIR newpath), fs)
    | _ => (None, <[newpath := f]> (delete oldpath fs))
    end
  end.

End os.

(** [Writer.Flush] writes the buffered bytes to the file. *)
Definition Flush (b : bufio.Writer) (fs : filesystem) : bufio.Writer * filesystem :=
  (bufio.mkWriter (bufio.wr b) [], os.append (bufio.wr b) (bufio.buf b) fs).

(** [Writer.WriteString]: the loop
    [for len(s) > b.Available() && b.err == nil] runs at most twice: with
    bytes buffered it fills the buffer and flushes, with an empty buffer
    it hands the (large) string to the file directly; what is left is
    copied to the buffer. *)
Definition WriteString (b : bufio.Writer) (s : gostring) (fs : filesystem)
  : bufio.Writer * filesystem :=
  if len s <=? bufio.Available b then
    (bufio.mkWriter (bufio.wr b) (bufio.buf b ++ s), fs)
  else if bufio.Buffered b =? 0 then
    (b, os.append (bufio.wr b) s fs)
  else
    let n := bufio.Available b in
    let '(b1, fs1) := Flush (bufio.mkWriter (bufio.wr b) (bufio.buf b ++ slice s 0 n)) fs in
    let s := slice_from s n in
    if len s <=? bufio.Available b1 then
      (bufio.mkWriter (bufio.wr b1) (bufio.buf b1 ++ s), fs1)
    else
      (b1, os.append (bufio.wr b1) s fs1).

(** ** The two rewriters (same body in main.go and part_000) *)

(** [replaceInFile(path, search, replace)]. *)
Definition replaceInFile (path : string) (search replace : gostring)
           (fs : filesystem) : option error * filesystem :=
  match os.OpenFile_RDWR path fs with
  | Some err => (Some err, fs)
  | None =>
    match os.read path fs with
    | inr err => (Some err, fs)
    | inl b =>
      let output := strings.ReplaceAll b search replace in
      os.WriteFile path output fs
    end
  end.

(** The loop [for scanner.Scan() { ... }] of [replaceInLargeFile] followed
    by the check of [scanner.Err()].  [r] is the input the scanner has not
    delivered yet, [k] the number of polls of the context so far.  The
    result is the error returned from inside the loop or by the check
    (nil: the statements after the check run), the writer and the file
    system.  Every round consumes at least one byte of [r]; [None] is
    returned only when [fuel] rounds were not enough. *)
Fixpoint scan_loop (fuel : nat) (ctx : Context) (search replace : gostring)
         (r : gostring) (k : nat) (w : bufio.Writer) (fs : filesystem)
  : option (option error * bufio.Writer * filesystem) :=
  match bufio.Scan r with
  | bufio.Stop err => Some (err, w, fs)
  | bufio.Token line rest =>
    if ctx_Done ctx k then Some (Some (ctx_Err ctx), w, fs)
    else
      let newLine := strings.ReplaceAll line search replace in
      let '(w', fs') := WriteString w (newLine ++ [newline]) fs in
      match fuel with
      | O => None
      | S f => scan_loop f ctx search replace rest (S k) w' fs'
      end
  end.

(** [replaceInLargeFile(ctx, path, search, replace)].  The deferred
    [os.Remove(tempFile.Name())] runs on every return after the temporary
    file was created; its error is dropped. *)
Definition replaceInLargeFile (ctx : Context) (path : string)
           (search replace : gostring) (fs : filesystem)
  : option (option error * filesystem) :=
  match os.Open path fs with
  | Some err => Some (Some err, fs)
  | None =>
    let '(tempFile, fs1) := os.CreateTemp fs in
    let deferred (res : option error * filesystem) :=
      (fst res, snd (os.Remove tempFile (snd res))) in
    let writer := bufio.NewWriter tempFile in
    match os.read path fs1 with
    | inr err => Some (deferred (Some err, fs1))
    | inl input =>
      match scan_loop (length input) ctx search replace input 0 writer fs1 with
      | None => None
      | Some (Some err, _, fs2) => Some (deferred (Some err, fs2))
      | Some (None, writer, fs2) =>
        let '(_, fs3) := Flush writer fs2 in
        Some (deferred (os.Rename tempFile path fs3))
      end
    end
  end.

(** ** The directory tree seen by the walker

    What [os.Lstat] and the directory listing report for a path and for
    everything below it.  The tree is assumed not to change while it is
    walked, so a path that is visited again designates the same node. *)
#[warnings="-register-all"]
Inductive node : Type :=
  | File (size : Z)
      (* a non-directory entry, with [info.Size()] *)
  | Dir (listing : option error) (entries : list (string * node))
      (* a directory; [listing] is the error of reading its names, if any *)
  | NoStat (err : error).
      (* an entry on which [Lstat] fails *)

(** [os.FileInfo]: the walker only asks [IsDir()] and [Size()]. *)
Definition IsDir (info : node) : bool :=
  match info with Dir _ _ => true | _ => false end.

Definition Size (info : node) : Z :=
  match info with File size => size | _ => 0 end.

(** [const maxFileSize = 2 * 1024 * 1024 * 1024]. *)
Definition maxFileSize : Z := 2 * 1024 * 1024 * 1024.

(** The two channels, and what the walker does that others can observe:
    sends on a channel, closing a channel, and the line logged for every
    entry ([log.Printf("Walking %s", path)]).  [Enter] is not an action
    of the program: it marks every entry into [walkDir] (respectively
    [walk]) with the path it is called on. *)
Inductive queue : Type := largeFiles | smallFiles.

Global Instance queue_eq_dec : EqDecision queue.
Proof. solve_decision. Defined.

Inductive event : Type :=
  | Send (q : queue) (path : string)
  | Close (q : queue)
  | Walking (path : string)
  | Enter (path : string).

Global Instance event_eq_dec : EqDecision event.
Proof. solve_decision. Defined.

(** The state threaded through a walk: the events so far (oldest first),
    the number of polls of the context so far, and the slice [errs] of
    the running call.  Sends are taken to complete: the consumers keep
    draining the channels. *)
Record wstate : Type := mkWstate {
  trace : list event;
  polls : nat;
  errs : list error
}.

(** Computations of the walker: state passing, with [None] when the
    recursion allowance ran out before the computation returned. *)
Definition W (A : Type) : Type := wstate → option (A * wstate).

Global Instance W_ret : MRet W := λ A a st, Some (a, st).

Global Instance W_bind : MBind W := λ A B f m st,
  match m st with
  | Some (a, st') => f a st'
  | None => None
  end.

Definition out_of_fuel {A} : W A := λ _, None.

Definition emit (e : event) : W unit :=
  fun st => Some (tt, mkWstate (trace st ++ [e]) (polls st) (errs st)).

(** [errs = append(errs, err)]. *)
Definition append_err (err : error) : W unit :=
  fun st => Some (tt, mkWstate (trace st) (polls st) (errs st ++ [err])).

(** One poll of the context. *)
Definition poll (ctx : Context) : W bool :=
  fun st => Some (ctx_Done ctx (polls st),
                  mkWstate (trace st) (S (polls st)) (errs st)).

(** A call that receives the slice [errs] by value: what the callee
    appends is not seen by the caller. *)
Definition call {A} (m : W A) : W A :=
  fun st => match m st with
            | Some (a, st') => Some (a, mkWstate (trace st') (polls st') (errs st))
            | None => None
            end.

(** ** Package path/filepath *)
Module filepath.

Definition Join (path name : string) : string :=
  (path +:+ "/" +:+ name)%string.

Definition WalkFunc : Type := string → node → option error → W (option error).

(** [walk(path, info, walkFn)], the recursive helper of [Walk]. *)
Fixpoint walk (path : string) (info : node) (walkFn : WalkFunc)
  : W (option error) :=
  match info with
  | Dir err names =>
    err1 ← walkFn path info err;
    if bool_decide (err ≠ None) || bool_decide (err1 ≠ None) then mret err1
    else
      (fix range (names : list (string * node)) : W (option error) :=
         match names with
         | [] => mret None
         | (name, fileInfo) :: names' =>
           let filename := Join path name in
           match fileInfo with
           | NoStat e =>
             err ← walkFn filename fileInfo (Some e);
             if bool_decide (err ≠ None)
                && bool_decide (err ≠ Some filepath_SkipDir)
             then mret err
             else range names'
           | _ =>
             err ← walk filename fileInfo walkFn;
             if bool_decide (err ≠ None)
                && (negb (IsDir fileInfo) || bool_decide (err ≠ Some filepath_SkipDir))
             then mret err
             else range names'
           end
         end) names
  | _ => walkFn path info None
  end.

(** [Walk(root, fn)]; [info] is what [os.Lstat(root)] finds. *)
Definition Walk (root : string) (info : node) (fn : WalkFunc) : W (option error) :=
  err ← match info with
        | NoStat e => fn root info (Some e)
        | _ => walk root info fn
        end;
  if bool_decide (err = Some filepath_SkipDir) || bool_decide (err = Some filepath_SkipAll)
  then mret None
  else mret err.

End filepath.

(** ** The walker of main.go *)
Module MainGo.

(** [walk(path, largeFiles, smallFiles, errs)].  [info] is the node at
    [path]; [fuel] bounds the depth of the nested calls of [walk]. *)
Fixpoint walk (fuel : nat) (path : string) (info : node) : W (option error) :=
  match fuel with
  | O => out_of_fuel
  | S fuel' =>
    emit (Enter path) ;;
    err ← filepath.Walk path info (λ path info err,
      match err return W (option error) with
      | Some err => append_err err ;; mret None
      | None =>
        if IsDir info then
          err ← call (walk fuel' path info);
          match (err : option error) with
          | Some err => append_err err ;; mret None
          | None => mret None
          end
        else
          (if maxFileSize <? Size info
           then emit (Send largeFiles path)
           else mret tt) ;;
          emit (Send smallFiles path) ;;
          mret None
      end);
    emit (Close largeFiles) ;;
    emit (Close smallFiles) ;;
    mret err
  end.

End MainGo.

(** ** The walker of part_000 *)
Module Part000.

(** [walkDir(ctx, path, largeFiles, smallFiles, errs)].  [info] is the
    node at [path]; [fuel] bounds the depth of the nested calls of
    [walkDir]. *)
Fixpoint walkDir (fuel : nat) (ctx : Context) (path : string) (info : node)
  : W (option error) :=
  match fuel with
  | O => out_of_fuel
  | S fuel' =>
    emit (Enter path) ;;
    let initialPath := path in
    filepath.Walk path info (λ path info err,
      fired ← poll ctx;
      if (fired : bool) then mret (Some (ctx_Err ctx))
      else if bool_decide (path = initialPath) then mret None
      else
        emit (Walking path) ;;
        match err with
        | Some err => append_err err ;; mret None
        | None =>
          if IsDir info then
            err ← call (walkDir fuel' ctx path info);
            match (err : option error) with
            | Some err => append_err err ;; mret None
            | None => mret None
            end
          else if maxFileSize <? Size info then
            emit (Send largeFiles path) ;; mret None
          else
            emit (Send smallFiles path) ;; mret None
        end)
  end.

(** [walk] wraps [walkDir] and closes the channels when the walk is
    done. *)
Definition walk (fuel : nat) (ctx : Context) (path : string) (info : node)
  : W (option error) :=
  err ← call (walkDir fuel ctx path info);
  emit (Close largeFiles) ;;
  emit (Close smallFiles) ;;
  mret err.

End Part000.

(** The state in which a walk starts. *)
Definition init : wstate := mkWstate [] 0 [].

(** ** Reference definitions

    The reading of the program's results that the properties below are
    stated against. *)

(** Global literal replacement as a left-to-right scan: at every position
    that is not inside an occurrence already replaced, an occurrence of
    [old] starting there is replaced by [new] and skipped; otherwise the
    byte is copied.  [skip] counts the bytes of the current occurrence
    still to be skipped. *)
Fixpoint scan_replace (old new : gostring) (skip : nat) (s : gostring) : gostring :=
  match s with
  | [] => []
  | c :: s' =>
    match skip with
    | S k => scan_replace old new k s'
    | O =>
      if strings.HasPrefix s old
      then new ++ scan_replace old new (length old - 1) s'
      else c :: scan_replace old new 0 s'
    end
  end.

(** Global literal replacement as the specification words it: every
    non-overlapping occurrence of [old], left to right, replaced by
    [new], and a no-op when [old] is empty. *)
Definition literal_replace (s old new : gostring) : gostring :=
  if bool_decide (old = []) then s else scan_replace old new 0 s.

(** The offset of the first occurrence of [old] in [s], if there is one
    ([Index] as a natural number). *)
Fixpoint first_occurrence (old s : gostring) : option nat :=
  if strings.HasPrefix s old then Some O
  else match s with
       | [] => None
       | _ :: s' => S <$> first_occurrence old s'
       end.

(** [old] occurs in [s] at offset [i]. *)
Definition occurs_at (old s : gostring) (i : nat) : Prop :=
  strings.HasPrefix (drop i s) old = true.

Definition occurs (old s : gostring) : Prop := ∃ i, occurs_at old s i.

(** The UTF-8 sequences of [s], as [DecodeRuneInString] delimits them
    from left to right. *)
Fixpoint runes_loop (fuel : nat) (s : gostring) : list gostring :=
  match fuel, s with
  | S f, _ :: _ =>
    let w := utf8.DecodeRuneInString_width s in
    slice s 0 w :: runes_loop f (slice_from s w)
  | _, _ => []
  end.

Definition runes (s : gostring) : list gostring := runes_loop (length s) s.

(** [new] placed before the first byte and after every UTF-8 sequence. *)
Definition insert_at_runes (s new : gostring) : gostring :=
  new ++ concat (map (λ r, r ++ new) (runes s)).

(** The lines of a content: the maximal runs of bytes other than the
    newline, each ended by a newline or by the end of the content (a
    content that ends with a newline has no further, empty line). *)
Fixpoint split_lines (s : gostring) : list gostring :=
  match s with
  | [] => []
  | c :: s' =>
    if bool_decide (c = newline) then [] :: split_lines s'
    else match split_lines s' with
         | [] => [[c]]
         | l :: ls => (c :: l) :: ls
         end
  end.

(** The tokens a scanner delivers on the input [r] when [Scan] is called
    until it returns false, and what [Err()] returns then. *)
Fixpoint scan_tokens (fuel : nat) (r : gostring) : list gostring * option error :=
  match bufio.Scan r with
  | bufio.Stop err => ([], err)
  | bufio.Token text rest =>
    match fuel with
    | O => ([], None)
    | S f => let '(ts, err) := scan_tokens f rest in (text :: ts, err)
    end
  end.

Definition Tokens (input : gostring) : list gostring * option error :=
  scan_tokens (length input) input.

(** What the loop of [replaceInLargeFile] makes of the tokens [ts]
    followed by the scanner's error [e]: [k] polls of the context have
    been made and [out] has been written so far. *)
Fixpoint rewrite_tokens (ctx : Context) (search replace : gostring)
         (ts : list gostring) (e : option error) (k : nat) (out : gostring)
  : option error * gostring :=
  match ts with
  | [] => (e, out)
  | t :: ts' =>
    if ctx_Done ctx k then (Some (ctx_Err ctx), out)
    else rewrite_tokens ctx search replace ts' e (S k)
           (out ++ strings.ReplaceAll t search replace ++ [newline])
  end.

(** A line short enough for the scanner's buffer. *)
Definition fits (l : gostring) : Prop := len l < bufio.MaxScanTokenSize.

Global Instance fits_dec l : Decision (fits l).
Proof. unfold fits. apply _. Defined.

(** What a scanner makes of the lines [ls] of its input: a line that fits
    the buffer is delivered without its terminal carriage return, the
    first line that does not fit ends the scan with [ErrTooLong]. *)
Fixpoint deliver (ls : list gostring) : list gostring * option error :=
  match ls with
  | [] => ([], None)
  | l :: ls' =>
    if bool_decide (fits l)
    then let '(ts, err) := deliver ls' in (bufio.dropCR l :: ts, err)
    else ([], Some bufio_ErrTooLong)
  end.

(** The writer [w] on the file [tmp] has been given [out] so far: the
    file system is [base] with the flushed part of [out] in [tmp], the
    rest is in the buffer. *)
Definition written (tmp : string) (base : filesystem) (out : gostring)
           (w : bufio.Writer) (fs : filesystem) : Prop :=
  bufio.wr w = tmp ∧
  ∃ d, fs = <[tmp := Regular d]> base ∧ d ++ bufio.buf w = out.

(** Every line written back with one newline after it. *)
Definition join_lines (ls : list gostring) : gostring :=
  concat (map (λ l, l ++ [newline]) ls).

(** The content written for the lines of [input]. *)
Definition rewritten (input search replace : gostring) : gostring :=
  join_lines (map (λ l, strings.ReplaceAll (bufio.dropCR l) search replace)
                  (split_lines input)).

(** The depth of a tree: the number of directories on its longest
    branch. *)
Fixpoint depth (n : node) : nat :=
  match n with
  | Dir _ entries =>
    S ((fix go (l : list (string * node)) : nat :=
          match l with
          | [] => O
          | (_, c) :: l' => Nat.max (depth c) (go l')
          end) entries)
  | _ => O
  end.

(** [n] is the node found at [p] by a walk that starts at [root] on
    [info]. *)
Inductive at_path (root : string) (info : node) : string → node → Prop :=
  | at_root : at_path root info root info
  | at_entry p listing entries name c :
      at_path root info p (Dir listing entries) →
      (name, c) ∈ entries →
      at_path root info (filepath.Join p name) c.

(** A tree as a file system presents it: the names in a directory are
    distinct and hold no path separator. *)
#[warnings="-register-all"]
Inductive well_formed : node → Prop :=
  | wf_File size : well_formed (File size)
  | wf_NoStat e : well_formed (NoStat e)
  | wf_Dir listing entries :
      NoDup entries.*1 →
      (∀ name c, (name, c) ∈ entries →
         ("/"%char ∉ list_ascii_of_string name) ∧ well_formed c) →
      well_formed (Dir listing entries).

(** The queue a file of a given size belongs to. *)
Definition classify (size : Z) : queue :=
  if maxFileSize <? size then largeFiles else smallFiles.

(** How often the event [e] occurs in the trace [t]. *)
Definition count_event (e : event) (t : list event) : nat :=
  length (filter (λ x, x = e) t).

(** The error that [filepath.Walk] passes to the callback together with
    a node. *)
Definition stat_err (c : node) : option error :=
  match c with
  | Dir listing _ => listing
  | NoStat e => Some e
  | File _ => None
  end.

(** How [filepath.Walk] and the loop of [filepath.walk] treat an entry:
    the callback alone when [Lstat] failed, [walk] otherwise. *)
Definition visit (path : string) (c : node) (fn : filepath.WalkFunc) : W (option error) :=
  match c with
  | NoStat e => fn path c (Some e)
  | _ => filepath.walk path c fn
  end.

(** An event that a walk of part_000 started at [root] on [info] may add:
    never the closing of a channel; a send only of a path strictly below
    [root] that holds a file, on the channel chosen by its size. *)
Definition walk_event (root : string) (info : node) (e : event) : Prop :=
  match e with
  | Close _ => False
  | Send q p =>
    (String.length root < String.length p)%nat ∧
    ∃ size, at_path root info p (File size) ∧ q = classify size
  | Walking p | Enter p => True
  end.

(** [st'] is reached from [st] by adding events allowed by [good] and
    polling the context. *)
Definition advances (good : event → Prop) (st st' : wstate) : Prop :=
  ∃ t, trace st' = trace st ++ t ∧ Forall good t ∧ (polls st ≤ polls st')%nat.

(** ** The workers of [main]

    The body of one worker goroutine on the small queue, taken alone:
    [paths] are the items this worker receives from the channel, in the
    order it receives them, [k] is the number of polls of the context so
    far and [errs] the slice of errors.  The result is the paths logged
    ([log.Printf("Processing %s", path)] in part_000; main.go has the same
    body without this line), the errors and the file system.  The files
    are taken not to be touched by anyone else meanwhile. *)
Fixpoint smallFilesWorker (ctx : Context) (search replace : gostring)
         (paths : list string) (k : nat) (logged : list string)
         (errs : list error) (fs : filesystem)
  : list string * list error * filesystem :=
  match paths with
  | [] => (logged, errs, fs)
  | path :: paths' =>
    let logged := logged ++ [path] in
    if ctx_Done ctx k then (logged, errs ++ [ctx_Err ctx], fs)
    else
      let '(err, fs') := replaceInFile path search replace fs in
      let errs :=
        match err with
        | Some err => errs ++ [err]
        | None => errs
        end in
      smallFilesWorker ctx search replace paths' (S k) logged errs fs'
  end.

(** ** The helper of main_test.go *)

(** [strings.Repeat(s, count)] for a count that is not negative (the
    only one used here is 50). *)
Definition Repeat (s : gostring) (count : Z) : gostring :=
  concat (replicate (Z.to_nat count) s).

(** The loop [for i := 0; i < size; i += skip] of [buildLargeFile], with
    the builder [sb] as state.  The integers are taken without
    wrap-around: the properties below assume [size] small enough for
    [i + skip] not to overflow.  Every round adds [skip] to [i], so
    [size] rounds are enough. *)
Definition skip : Z := 50.

Fixpoint buildLargeFile_loop (fuel : nat) (char : gostring) (size i : Z)
         (sb : gostring) : gostring :=
  if i <? size then
    match fuel with
    | O => sb
    | S f =>
      let sb := sb ++ Repeat char skip in
      let sb := sb ++ [newline] in
      buildLargeFile_loop f char size (i + skip) sb
    end
  else sb.

(** [buildLargeFile(char, size)]. *)
Definition buildLargeFile (char : gostring) (size : Z) : gostring :=
  buildLargeFile_loop (Z.to_nat size) char size 0 [].

(** The largest [int] of a 64-bit platform. *)
Definition max_int : Z := 2 ^ 63 - 1.

(** ** Further reference definitions *)

(** The replacement of one byte by another, byte by byte. *)
Definition subst_byte (a b : byte) (s : gostring) : gostring :=
  map (λ x, if bool_decide (x = a) then b else x) s.

(** A line of a text file as the large path keeps it: without newline,
    short enough for the scanner and not ended by a carriage return. *)
Definition plain_line (l : gostring) : Prop :=
  (newline ∉ l) ∧ fits l ∧ last l ≠ Some carriage_return.

(** The number of sends in a trace. *)
Definition is_send (e : event) : bool :=
  match e with Send _ _ => true | _ => false end.

Definition sends (t : list event) : nat := length (filter is_send t).

(** [n] is found at [p] below [root] through directories whose names
    can be read. *)
Inductive readable_path (root : string) (info : node) : string → node → Prop :=
  | readable_root : readable_path root info root info
  | readable_entry p entries name c :
      readable_path root info p (Dir None entries) →
      (name, c) ∈ entries →
      readable_path root info (filepath.Join p name) c.

(** [st'] is reached from [st] by a walk under a context that fires at
    poll [n]: every send is paid for by a poll that found the context
    alive. *)
Definition sends_while_alive (n : nat) (st st' : wstate) : Prop :=
  ∃ t, trace st' = trace st ++ t ∧
       (sends t + Nat.min (polls st) n ≤ Nat.min (polls st') n)%nat.

(** A root on which [walk] of main.go recurses: a directory whose names
    can be read. *)
Definition readable_dir (info : node) : Prop :=
  match info with Dir None _ => True | _ => False end.

(** The errors a context can report. *)
Definition context_error (e : error) : Prop :=
  e = context_Canceled ∨ e = context_DeadlineExceeded.

(** ** Concrete inputs used in the examples below *)

(** A context that never fires while the caller runs, and one whose
    deadline has expired before the call. *)
Definition background : Context := mkContext None context_Canceled.
Definition expired : Context := mkContext (Some O) context_DeadlineExceeded.

Definition a_txt : string := "/data/a.txt".

(** A file system with one regular file. *)
Definition one_file (content : gostring) : filesystem :=
  {[ a_txt := Regular content ]}.

(** A line of [n] bytes ['x']. *)
Definition xs (n : Z) : gostring := replicate (Z.to_nat n) "x"%char.

(** Three nested directories with one small file at the bottom. *)
Definition nested : node :=
  Dir None [("a"%string, Dir None [("b"%string, Dir None [("f"%string, File 3)])])].

(** A directory with an entry that cannot be examined, a directory that
    cannot be listed and a file. *)
Definition broken : node :=
  Dir None [("gone"%string, NoStat (PathError "lstat"));
            ("locked"%string, Dir (Some (PathError "permission denied")) []);
            ("f"%string, File 1)].

(** Two files and a directory. *)
Definition two_files : filesystem :=
  {[ "/d/a"%string := Regular (B "foo"); "/d/c"%string := Regular (B "oof"); "/d/sub"%string := Directory ]}.

(** A content with a DOS line ending. *)
Definition crlf : gostring := B "a" ++ [carriage_return; newline] ++ B "b".

Example ReplaceAll_example_hello :
  strings.ReplaceAll (B "hello world") (B "world") (B "gopher") = B "hello gopher".
Proof. vm_compute. reflexivity. Qed.

Example ReplaceAll_example_foo :
  strings.ReplaceAll (B "foo bar foo") (B "foo") (B "baz") = B "baz bar baz".
Proof. vm_compute. reflexivity. Qed.

Example ReplaceAll_example_empty_old :
  strings.ReplaceAll (B "ab") (B "") (B "-") = B "-a-b-".
Proof. vm_compute. reflexivity. Qed.

Example ReplaceAll_example_aab :
  strings.ReplaceAll (B "aab") (B "ab") (B "b") = B "ab".
Proof. vm_compute. reflexivity. Qed.



(** * Properties *)

(** ** Slices and prefixes *)

Lemma len_nonneg s : 0 <= len s.
Proof. unfold len. lia. Qed.

Lemma slice_0 s n : slice s 0 n = take (Z.to_nat n) s.
Proof. unfold slice. by rewrite Z.sub_0_r. Qed.

Lemma slice_from_nat s (n : nat) : slice_from s (Z.of_nat n) = drop n s.
Proof. unfold slice_from. by rewrite Nat2Z.id. Qed.

Lemma HasPrefix_true s p :
  strings.HasPrefix s p = true ↔ ∃ t, s = p ++ t.
Proof.
  unfold strings.HasPrefix. rewrite andb_true_iff, !bool_decide_eq_true, slice_0.
  unfold len. rewrite Nat2Z.id. split.
  - intros [_ H]. exists (drop (length p) s). by rewrite <- H at 1; rewrite take_drop.
  - intros [t ->]. rewrite length_app. split; [lia|].
    by rewrite take_app_length.
Qed.

Lemma HasPrefix_nil s : strings.HasPrefix s [] = true.
Proof. apply HasPrefix_true. by exists s. Qed.

Lemma HasPrefix_false_nil p : p ≠ [] → strings.HasPrefix [] p = false.
Proof.
  intros Hp. apply not_true_is_false. rewrite HasPrefix_true.
  intros [t Ht]. symmetry in Ht. by apply app_eq_nil in Ht as [? _].
Qed.

(** ** [strings.Index] *)

Lemma Index_from_first i s old :
  strings.Index_from i s old =
  match first_occurrence old s with
  | Some j => i + Z.of_nat j
  | None => -1
  end.
Proof.
  revert i. induction s as [|c s IH]; intros i; simpl.
  - destruct (strings.HasPrefix [] old); simpl; [lia|done].
  - destruct (strings.HasPrefix (c :: s) old); simpl; [lia|].
    rewrite IH. destruct (first_occurrence old s); simpl; [lia|done].
Qed.

Lemma Index_first s old :
  strings.Index s old =
  match first_occurrence old s with
  | Some j => Z.of_nat j
  | None => -1
  end.
Proof.
  unfold strings.Index. rewrite Index_from_first.
  by destruct (first_occurrence old s).
Qed.

Lemma first_occurrence_Some old s j :
  first_occurrence old s = Some j →
  ∃ t, s = take j s ++ old ++ t ∧ drop (j + length old) s = t ∧
       (j + length old ≤ length s)%nat.
Proof.
  revert j. induction s as [|c s IH]; intros j; simpl.
  - destruct (strings.HasPrefix [] old) eqn:E; [|done].
    intros [= <-]. apply HasPrefix_true in E as [t Ht].
    symmetry in Ht. apply app_eq_nil in Ht as [-> ->]. by exists [].
  - destruct (strings.HasPrefix (c :: s) old) eqn:E.
    + intros [= <-]. apply HasPrefix_true in E as [t Ht].
      exists t. change (S (length s)) with (length (c :: s)).
      rewrite Ht. simpl. rewrite drop_app_length, length_app.
      repeat split; lia.
    + destruct (first_occurrence old s) as [j'|] eqn:F; [|done].
      intros [= <-]. destruct (IH j' eq_refl) as (t & H1 & H2 & H3).
      exists t. simpl. repeat split; [by rewrite <- H1|done|lia].
Qed.

Lemma first_occurrence_None old s i :
  first_occurrence old s = None → strings.HasPrefix (drop i s) old = false.
Proof.
  revert i. induction s as [|c s IH]; intros i; simpl.
  - destruct (strings.HasPrefix [] old) eqn:E; [done|]. by rewrite drop_nil.
  - destruct (strings.HasPrefix (c :: s) old) eqn:E; [done|].
    destruct (first_occurrence old s) eqn:F; [done|]. intros _.
    destruct i; simpl; [done|]. by apply IH.
Qed.

Lemma first_occurrence_least old s j i :
  first_occurrence old s = Some j → (i < j)%nat →
  strings.HasPrefix (drop i s) old = false.
Proof.
  revert j i. induction s as [|c s IH]; intros j i; simpl.
  - destruct (strings.HasPrefix [] old); [|done]. intros [= <-]. lia.
  - destruct (strings.HasPrefix (c :: s) old) eqn:E.
    { intros [= <-]. lia. }
    destruct (first_occurrence old s) as [j'|] eqn:F; [|done].
    intros [= <-] Hi. destruct i; simpl; [done|]. apply (IH j'); [done|lia].
Qed.

Lemma first_occurrence_occurs old s :
  is_Some (first_occurrence old s) ↔ occurs old s.
Proof.
  split.
  - intros [j Hj]. exists j. unfold occurs_at.
    destruct (first_occurrence_Some _ _ _ Hj) as (t & H1 & H2 & H3).
    apply HasPrefix_true. exists t. rewrite H1 at 1.
    rewrite drop_app_length'; [done|]. rewrite length_take. lia.
  - intros [i Hi]. unfold occurs_at in Hi.
    destruct (first_occurrence old s) eqn:F; [done|].
    by rewrite (first_occurrence_None _ _ i F) in Hi.
Qed.

(** ** The scan that replaces every occurrence *)

Lemma scan_replace_skip old new k s :
  scan_replace old new k s = scan_replace old new 0 (drop k s).
Proof.
  revert k. induction s as [|c s IH]; intros [|k]; simpl; done.
Qed.

Lemma scan_replace_hit old new s :
  old ≠ [] → strings.HasPrefix s old = true →
  scan_replace old new 0 s = new ++ scan_replace old new 0 (drop (length old) s).
Proof.
  intros Hold H. destruct s as [|c s].
  { by rewrite HasPrefix_false_nil in H. }
  simpl scan_replace. rewrite H, scan_replace_skip.
  destruct old as [|o old]; [done|]. simpl. by rewrite Nat.sub_0_r.
Qed.

Lemma scan_replace_first_None old new s :
  first_occurrence old s = None → scan_replace old new 0 s = s.
Proof.
  induction s as [|c s IH]; simpl; [done|].
  destruct (strings.HasPrefix (c :: s) old); [done|].
  destruct (first_occurrence old s); [done|]. intros _. by rewrite IH.
Qed.

Lemma scan_replace_first_Some old new s j :
  old ≠ [] → first_occurrence old s = Some j →
  scan_replace old new 0 s =
  take j s ++ new ++ scan_replace old new 0 (drop (j + length old) s).
Proof.
  intros Hold. revert j. induction s as [|c s IH]; intros j.
  - simpl. by rewrite HasPrefix_false_nil.
  - simpl first_occurrence. destruct (strings.HasPrefix (c :: s) old) eqn:E.
    + intros [= <-]. by rewrite scan_replace_hit.
    + destruct (first_occurrence old s) as [j'|] eqn:F; [|done].
      intros [= <-]. simpl. rewrite E. by rewrite (IH j').
Qed.

Lemma scan_replace_same old s : old ≠ [] → scan_replace old old 0 s = s.
Proof.
  intros Hold.
  remember (length s) as n eqn:Hn. revert s Hn.
  induction n as [n IH] using lt_wf_ind. intros s ->.
  destruct (first_occurrence old s) as [j|] eqn:F.
  - rewrite (scan_replace_first_Some _ _ _ j) by done.
    destruct (first_occurrence_Some _ _ _ F) as (t & H1 & H2 & H3).
    rewrite H2. rewrite (IH (length t)); [by rewrite <- H1|..|done].
    rewrite <- H2, length_drop. destruct old; [done|]. simpl in *. lia.
  - by apply scan_replace_first_None.
Qed.

(** ** [strings.Count] and the loop of [strings.Replace] *)

Lemma Replace_loop_correct old new s :
  old ≠ [] →
  ∀ fuel (start : nat) n,
    (length s - start ≤ fuel)%nat →
    ∃ m : nat,
      strings.Count_loop fuel (drop start s) old n = n + Z.of_nat m ∧
      ∀ i b,
        ∃ start' b',
          strings.Replace_loop m s old new i (Z.of_nat start) b = (start', b') ∧
          b' ++ slice_from s start' = b ++ scan_replace old new 0 (drop start s).
Proof.
  intros Hold. induction fuel as [|fuel IH]; intros start n Hfuel.
  - assert (drop start s = []) as Hd.
    { apply length_zero_iff_nil. rewrite length_drop. lia. }
    exists O. rewrite Hd. simpl. rewrite Index_first. simpl.
    rewrite HasPrefix_false_nil by done. simpl. split; [lia|].
    intros i b. eexists _, _. split; [done|].
    by rewrite slice_from_nat, Hd.
  - simpl strings.Count_loop. rewrite Index_first.
    destruct (first_occurrence old (drop start s)) as [j|] eqn:F.
    + destruct (first_occurrence_Some _ _ _ F) as (t & H1 & H2 & H3).
      rewrite length_drop in H3.
      assert (0 < length old)%nat by (destruct old; [done|simpl; lia]).
      replace (Z.of_nat j =? -1) with false by (symmetry; apply Z.eqb_neq; lia).
      replace (slice_from (drop start s) (Z.of_nat j + len old))
        with (drop (start + j + length old) s).
      2:{ unfold slice_from, len. rewrite <- Nat2Z.inj_add, Nat2Z.id, drop_drop.
          f_equal. lia. }
      destruct (IH (start + j + length old)%nat (n + 1)) as (m & Hm & Hloop); [lia|].
      exists (S m). split; [rewrite Hm; lia|].
      intros i b. simpl strings.Replace_loop.
      replace (len old =? 0) with false
        by (symmetry; apply Z.eqb_neq; unfold len; lia).
      rewrite slice_from_nat, Index_first, F.
      destruct (Hloop (i + 1) ((b ++ slice s (Z.of_nat start) (Z.of_nat start + Z.of_nat j)) ++ new))
        as (start' & b' & E1 & E2).
      exists start', b'. split.
      * rewrite <- E1. f_equal. unfold len. lia.
      * rewrite E2. rewrite (scan_replace_first_Some old new (drop start s) j) by done.
        rewrite drop_drop, <- !app_assoc. do 2 f_equal.
        -- unfold slice. rewrite Nat2Z.id. f_equal. lia.
        -- do 3 f_equal. lia.
    + simpl. exists O. split; [lia|]. intros i b. eexists _, _. split; [done|].
      by rewrite slice_from_nat, scan_replace_first_None.
Qed.

Lemma len_eq_0 s : (len s =? 0) = bool_decide (s = []).
Proof.
  destruct s; done.
Qed.

(** For a non-empty [old], [ReplaceAll] is the left-to-right scan. *)
Lemma ReplaceAll_scan s old new :
  old ≠ [] → strings.ReplaceAll s old new = scan_replace old new 0 s.
Proof.
  intros Hold. unfold strings.ReplaceAll, strings.Replace.
  case_bool_decide as Hon; simpl.
  { subst new. by rewrite scan_replace_same. }
  unfold strings.Count. rewrite len_eq_0, bool_decide_eq_false_2 by done.
  destruct (Replace_loop_correct old new s Hold (length s) 0%nat 0) as (m & Hm & Hloop);
    [lia|].
  rewrite drop_0 in Hm. rewrite Hm, Z.add_0_l.
  destruct (Hloop 0 []) as (start' & b' & E1 & E2).
  rewrite drop_0 in E2. simpl in E2.
  change (Z.of_nat 0) with 0 in E1.
  destruct m as [|m].
  - simpl. simpl in E1. injection E1 as <- <-. by rewrite <- E2.
  - replace (Z.of_nat (S m) =? 0) with false by (symmetry; apply Z.eqb_neq; lia).
    simpl orb. cbv iota. rewrite Nat2Z.id, E1. done.
Qed.

Lemma ReplaceAll_literal s old new :
  old ≠ [] → strings.ReplaceAll s old new = literal_replace s old new.
Proof.
  intros Hold. unfold literal_replace.
  rewrite bool_decide_eq_false_2 by done. by apply ReplaceAll_scan.
Qed.

(** ** UTF-8 sequences and the replacement of an empty [old] *)

Lemma first_values z :
  (z < 0x80 ∧ utf8.first z = utf8.as_) ∨
  (0x80 <= z ∧
   (utf8.first z = utf8.xx ∨ utf8.first z = utf8.s1 ∨ utf8.first z = utf8.s2 ∨
    utf8.first z = utf8.s3 ∨ utf8.first z = utf8.s4 ∨ utf8.first z = utf8.s5 ∨
    utf8.first z = utf8.s6 ∨ utf8.first z = utf8.s7)).
Proof.
  unfold utf8.first.
  repeat (case_match; [try (apply Z.ltb_lt in H || apply Z.eqb_eq in H); (left; split; [lia|done]) || (right; split; [lia|]; tauto) | ]); try (apply Z.ltb_ge in H).
  all: try (right; split; [lia | tauto]).
Qed.

Lemma width_eq r : utf8.DecodeRuneInString_width r = utf8.RuneCount_step r.
Proof.
  destruct r as [|c0 t]; [done|].
  unfold utf8.DecodeRuneInString_width, utf8.RuneCount_step.
  destruct (first_values (byte_val c0)) as [[Hz ->]|[Hz Hf]].
  - replace (byte_val c0 <? utf8.RuneSelf) with true by (symmetry; apply Z.ltb_lt; unfold utf8.RuneSelf; lia). done.
  - replace (byte_val c0 <? utf8.RuneSelf) with false by (symmetry; apply Z.ltb_ge; unfold utf8.RuneSelf; lia).
    destruct Hf as [->|[->|[->|[->|[->|[->|[->| ->]]]]]]]; cbn -[len Z.ltb byte_val]; try done.
    all: destruct (len (c0 :: t) <? _) eqn:E; [done|].
    all: destruct t as [|c1 [|c2 [|c3 t]]]; try done.
    all: repeat case_match; try done.
Qed.

Lemma width_bounds c t :
  1 <= utf8.DecodeRuneInString_width (c :: t) <= len (c :: t).
Proof.
  assert (1 <= len (c :: t)) as H1 by (unfold len; simpl; lia).
  unfold utf8.DecodeRuneInString_width.
  destruct (first_values (byte_val c)) as [[Hz ->]|[Hz Hf]]; [simpl; lia|].
  destruct Hf as [->|[->|[->|[->|[->|[->|[->| ->]]]]]]]; cbn -[len Z.ltb byte_val]; try lia.
  all: destruct (len (c :: t) <? _) eqn:E; [lia|]; apply Z.ltb_ge in E.
  all: destruct t as [|c1 [|c2 [|c3 t]]]; try lia.
  all: repeat case_match; try lia.
  all: unfold len in *; simpl length in *; lia.
Qed.

Lemma runes_loop_concat fuel s :
  (length s ≤ fuel)%nat → concat (runes_loop fuel s) = s.
Proof.
  revert s. induction fuel as [|fuel IH]; intros s Hs.
  - destruct s; [done|simpl in Hs; lia].
  - destruct s as [|c t]; [done|].
    cbn [runes_loop concat]. pose proof (width_bounds c t) as Hw.
    rewrite IH.
    + rewrite slice_0. unfold slice_from. apply take_drop.
    + unfold slice_from. rewrite length_drop. unfold len in Hw. simpl length in *. lia.
Qed.

Lemma RuneCount_loop_runes fuel s n :
  utf8.RuneCount_loop fuel s n = n + Z.of_nat (length (runes_loop fuel s)).
Proof.
  revert s n. induction fuel as [|fuel IH]; intros s n; simpl; [lia|].
  destruct s as [|c t]; [simpl; lia|].
  rewrite IH, <- width_eq. cbn [length]. lia.
Qed.

Lemma Replace_loop_empty new s fuel :
  ∀ (start : nat) i b,
    0 < i → (start ≤ length s)%nat → (length s - start ≤ fuel)%nat →
    strings.Replace_loop (length (runes_loop fuel (drop start s))) s [] new i (Z.of_nat start) b =
    (len s, b ++ concat (map (λ r, r ++ new) (runes_loop fuel (drop start s)))).
Proof.
  induction fuel as [|fuel IH]; intros start i b Hi Hstart Hfuel.
  - simpl. rewrite app_nil_r. do 2 f_equal. unfold len. lia.
  - destruct (drop start s) as [|c t] eqn:Hd.
    { simpl. rewrite app_nil_r. f_equal.
      apply (f_equal length) in Hd. rewrite length_drop in Hd. simpl in Hd. unfold len. lia. }
    cbn [runes_loop length map concat strings.Replace_loop].
    change (len [] =? 0) with true. cbv iota.
    replace (0 <? i) with true by (symmetry; apply Z.ltb_lt; lia).
    rewrite slice_from_nat, Hd.
    pose proof (width_bounds c t) as Hw.
    assert (length (c :: t) = length s - start)%nat as Hl
      by (rewrite <- Hd; apply length_drop).
    set (w := utf8.DecodeRuneInString_width (c :: t)) in *.
    assert (slice_from (c :: t) w = drop (start + Z.to_nat w) s) as ->.
    { unfold slice_from. rewrite <- Hd, drop_drop. done. }
    change (len []) with 0. rewrite Z.add_0_r.
    replace (Z.of_nat start + w) with (Z.of_nat (start + Z.to_nat w)) by lia.
    unfold len in Hw. rewrite IH; [|lia..].
    f_equal. rewrite <- !app_assoc. do 2 f_equal.
    unfold slice. rewrite Nat2Z.id, Hd. simpl (Z.to_nat 0). rewrite drop_0.
    f_equal. lia.
Qed.

Lemma ReplaceAll_empty_old s new :
  new ≠ [] → strings.ReplaceAll s [] new = insert_at_runes s new.
Proof.
  intros Hnew. unfold strings.ReplaceAll, strings.Replace.
  rewrite bool_decide_eq_false_2 by done. simpl orb. cbv iota.
  unfold strings.Count. change (len [] =? 0) with true. cbv iota.
  unfold utf8.RuneCountInString. rewrite RuneCount_loop_runes.
  fold (runes s). set (k := length (runes s)).
  replace (0 + Z.of_nat k + 1 =? 0) with false by (symmetry; apply Z.eqb_neq; lia).
  simpl orb. cbv iota.
  replace (Z.to_nat (0 + Z.of_nat k + 1)) with (S k) by lia.
  cbn [strings.Replace_loop]. change (len [] =? 0) with true. cbv iota.
  change (0 <? 0) with false. cbv iota.
  change (slice s 0 0) with (@nil ascii). simpl app.
  change (0 + len []) with (Z.of_nat 0). unfold k, runes.
  rewrite <- (drop_0 s) at 2 4.
  rewrite (Replace_loop_empty new s (length s) 0%nat (0 + 1) new); [|lia..].
  unfold insert_at_runes, runes, slice_from, len. rewrite Nat2Z.id, drop_all, app_nil_r, drop_0. done.
Qed.

Lemma length_concat_map_app (new : gostring) (l : list gostring) :
  length (concat (map (λ r, r ++ new) l)) =
  (length (concat l) + length l * length new)%nat.
Proof.
  induction l as [|r l IH]; simpl; [done|].
  rewrite !length_app, IH. lia.
Qed.

Lemma length_insert_at_runes s new :
  length (insert_at_runes s new) =
  (length s + S (length (runes s)) * length new)%nat.
Proof.
  unfold insert_at_runes. rewrite length_app, length_concat_map_app.
  unfold runes. rewrite runes_loop_concat by done. lia.
Qed.

Lemma ReplaceAll_empty_old_id s new :
  strings.ReplaceAll s [] new = s ↔ new = [].
Proof.
  split.
  - intros H. destruct (decide (new = [])) as [|Hnew]; [done|].
    rewrite ReplaceAll_empty_old in H by done.
    apply (f_equal length) in H. rewrite length_insert_at_runes in H.
    destruct new; [done|]. simpl in H. lia.
  - intros ->. done.
Qed.

(** ** [bufio.Scanner] *)

Lemma IndexByte_from_absent i data c :
  c ∉ data → bufio.IndexByte_from i data c = -1.
Proof.
  revert i. induction data as [|x data IH]; intros i Hc; simpl; [done|].
  apply not_elem_of_cons in Hc as [Hx Hc].
  rewrite bool_decide_eq_false_2 by done. by apply IH.
Qed.

Lemma IndexByte_from_present i l c rest :
  c ∉ l → bufio.IndexByte_from i (l ++ c :: rest) c = i + len l.
Proof.
  revert i. induction l as [|x l IH]; intros i Hc; simpl.
  - rewrite bool_decide_eq_true_2 by done. unfold len. simpl. lia.
  - apply not_elem_of_cons in Hc as [Hx Hc].
    rewrite bool_decide_eq_false_2 by done. rewrite IH by done.
    unfold len. simpl length. lia.
Qed.

Lemma elem_of_take_inv {A} (x : A) n l : x ∈ take n l → x ∈ l.
Proof.
  revert n. induction l as [|y l IH]; intros [|n]; simpl; try (by inversion 1).
  intros [->|H]%elem_of_cons; [left|right; eauto].
Qed.

Lemma Scan_nil : bufio.Scan [] = bufio.Stop None.
Proof. done. Qed.

Lemma MaxScanTokenSize_pos : 0 < bufio.MaxScanTokenSize.
Proof. done. Qed.

Lemma fits_ltb l : bool_decide (fits l) = (len l <? bufio.MaxScanTokenSize).
Proof.
  case_bool_decide as H; symmetry; [by apply Z.ltb_lt|].
  apply Z.ltb_ge. unfold fits in H. lia.
Qed.

Lemma Scan_line l rest :
  newline ∉ l →
  bufio.Scan (l ++ newline :: rest) =
  if bool_decide (fits l) then bufio.Token (bufio.dropCR l) rest
  else bufio.Stop (Some bufio_ErrTooLong).
Proof.
  intros Hl. rewrite fits_ltb. unfold bufio.Scan.
  pose proof MaxScanTokenSize_pos as HM. revert HM.
  generalize bufio.MaxScanTokenSize as M. intros M HM.
  set (r := l ++ newline :: rest).
  assert (len r = len l + 1 + len rest) as Hr.
  { unfold r, len. rewrite length_app. simpl. lia. }
  rewrite slice_0. unfold bufio.ScanLines.
  destruct (len l <? M) eqn:Hfit; [apply Z.ltb_lt in Hfit|apply Z.ltb_ge in Hfit].
  - assert (take (Z.to_nat M) r =
            l ++ newline :: take (Z.to_nat M - S (length l)) rest) as ->.
    { unfold r. rewrite take_app. f_equal; [apply take_ge; unfold len in Hfit; lia|].
      replace (Z.to_nat M - length l)%nat
        with (S (Z.to_nat M - S (length l))) by (unfold len in Hfit; lia).
      done. }
    unfold bufio.IndexByte. rewrite IndexByte_from_present by done.
    replace (_ && _) with false.
    2:{ symmetry. apply andb_false_iff. right. apply Z.eqb_neq.
        unfold len. rewrite length_app. simpl. lia. }
    replace (0 <=? 0 + len l) with true by (symmetry; apply Z.leb_le; unfold len; lia).
    f_equal.
    + f_equal. rewrite slice_0. unfold len. rewrite Z.add_0_l, Nat2Z.id.
      by rewrite take_app_length.
    + unfold slice_from, r, len. rewrite Z.add_0_l.
      replace (Z.to_nat (Z.of_nat (length l) + 1)) with (length l + 1)%nat by lia.
      rewrite <- drop_drop, drop_app_length. done.
  - replace (len r <? M) with false
      by (symmetry; apply Z.ltb_ge; pose proof (len_nonneg rest); lia).
    simpl andb. cbv iota.
    assert (take (Z.to_nat M) r = take (Z.to_nat M) l) as ->.
    { unfold r. rewrite take_app.
      replace (Z.to_nat M - length l)%nat with 0%nat by (unfold len in Hfit; lia).
      by rewrite take_0, app_nil_r. }
    unfold bufio.IndexByte. rewrite IndexByte_from_absent; [done|].
    intros Hin. apply Hl. by eapply elem_of_take_inv.
Qed.

Lemma Scan_last l :
  newline ∉ l → l ≠ [] →
  bufio.Scan l =
  if bool_decide (fits l) then bufio.Token (bufio.dropCR l) []
  else bufio.Stop (Some bufio_ErrTooLong).
Proof.
  intros Hl Hne. rewrite fits_ltb. unfold bufio.Scan.
  pose proof MaxScanTokenSize_pos as HM. revert HM.
  generalize bufio.MaxScanTokenSize as M. intros M HM.
  rewrite slice_0. unfold bufio.ScanLines, bufio.IndexByte.
  rewrite IndexByte_from_absent by (intros Hin; apply Hl; by eapply elem_of_take_inv).
  change (0 <=? -1) with false. cbv iota.
  destruct (len l <? M) eqn:Hfit; [apply Z.ltb_lt in Hfit|apply Z.ltb_ge in Hfit].
  - rewrite take_ge by (unfold len in Hfit; lia).
    rewrite len_eq_0, bool_decide_eq_false_2 by done. simpl.
    f_equal. unfold slice_from, len. rewrite Nat2Z.id. apply drop_all.
  - done.
Qed.

(** ** Lines and tokens *)

Lemma split_lines_line l rest :
  newline ∉ l → split_lines (l ++ newline :: rest) = l :: split_lines rest.
Proof.
  induction l as [|c l IH]; intros Hl; simpl.
  - done.
  - apply not_elem_of_cons in Hl as [Hc Hl].
    rewrite bool_decide_eq_false_2 by done. by rewrite IH.
Qed.

Lemma split_lines_last l :
  newline ∉ l → l ≠ [] → split_lines l = [l].
Proof.
  induction l as [|c l IH]; intros Hl Hne; [done|]. simpl.
  apply not_elem_of_cons in Hl as [Hc Hl].
  rewrite bool_decide_eq_false_2 by done.
  destruct l as [|c' l]; [done|]. by rewrite IH.
Qed.

Lemma first_newline s :
  newline ∉ s ∨ ∃ l rest, s = l ++ newline :: rest ∧ newline ∉ l.
Proof.
  destruct (decide (newline ∈ s)) as [Hin|]; [right|by left].
  apply list_elem_of_split_l in Hin as (l & rest & -> & Hl). eauto.
Qed.

Lemma scan_tokens_lines fuel r :
  (length r ≤ fuel)%nat → scan_tokens fuel r = deliver (split_lines r).
Proof.
  revert r. induction fuel as [|fuel IH]; intros r Hr.
  - destruct r; [done|simpl in Hr; lia].
  - destruct (first_newline r) as [Hno|(l & rest & -> & Hl)].
    + destruct (decide (r = [])) as [->|Hne]; [done|].
      rewrite split_lines_last by done. simpl scan_tokens. cbn [deliver].
      rewrite Scan_last by done. case_bool_decide; [|done].
      by rewrite IH by (simpl; lia).
    + rewrite split_lines_line by done. simpl scan_tokens. cbn [deliver].
      rewrite Scan_line by done. case_bool_decide; [|done].
      rewrite IH; [done|]. rewrite length_app in Hr. simpl in Hr. lia.
Qed.

Lemma Tokens_lines input : Tokens input = deliver (split_lines input).
Proof. by apply scan_tokens_lines. Qed.

Lemma deliver_fits ls :
  Forall fits ls → deliver ls = (map bufio.dropCR ls, None).
Proof.
  induction 1 as [|l ls Hl _ IH]; [done|]. simpl.
  rewrite bool_decide_eq_true_2 by done. by rewrite IH.
Qed.

Lemma deliver_too_long ls :
  ¬ Forall fits ls → ∃ ts, deliver ls = (ts, Some bufio_ErrTooLong) ∧ (length ts < length ls)%nat.
Proof.
  induction ls as [|l ls IH]; intros H.
  - by destruct H.
  - simpl. case_bool_decide as Hl.
    + destruct IH as (ts & -> & Hlen).
      { intros Hall. apply H. by constructor. }
      eexists. split; [done|]. simpl. lia.
    + eexists. split; [done|]. simpl. lia.
Qed.

Lemma deliver_err ls ts e :
  deliver ls = (ts, e) → e = None ∨ e = Some bufio_ErrTooLong.
Proof.
  revert ts. induction ls as [|l ls IH]; intros ts; simpl.
  - intros [= <- <-]. by left.
  - case_bool_decide; [|intros [= <- <-]; by right].
    destruct (deliver ls) as [ts' e']. intros [= <- <-]. by eapply IH.
Qed.

(** ** The buffered writer on the temporary file *)

Lemma append_written tmp (base : filesystem) d x :
  os.append tmp x (<[tmp := Regular d]> base) = <[tmp := Regular (d ++ x)]> base.
Proof. unfold os.append. by rewrite lookup_insert_eq, insert_insert_eq. Qed.

Lemma Flush_written tmp base out w fs :
  written tmp base out w fs →
  Flush w fs = (bufio.mkWriter tmp [], <[tmp := Regular out]> base).
Proof.
  intros (<- & d & -> & <-). unfold Flush. by rewrite append_written.
Qed.

Lemma WriteString_written tmp base out w fs s :
  written tmp base out w fs →
  ∃ w' fs', WriteString w s fs = (w', fs') ∧ written tmp base (out ++ s) w' fs'.
Proof.
  intros (Hw & d & -> & <-). unfold WriteString.
  destruct (len s <=? bufio.Available w).
  { eexists _, _. split; [done|]. split; [done|].
    exists d. split; [done|]. simpl. by rewrite !app_assoc. }
  destruct (bufio.Buffered w =? 0) eqn:Hb.
  { eexists _, _. split; [done|]. split; [done|]. rewrite <- Hw, append_written.
    eexists. split; [done|].
    unfold bufio.Buffered in Hb. rewrite len_eq_0 in Hb.
    apply bool_decide_eq_true in Hb. rewrite Hb, !app_nil_r. done. }
  unfold Flush. simpl bufio.wr. simpl bufio.buf. rewrite <- Hw, append_written.
  set (n := bufio.Available w).
  assert (slice s 0 n ++ slice_from s n = s) as Hs.
  { rewrite slice_0. apply take_drop. }
  destruct (len (slice_from s n) <=? _).
  - eexists _, _. split; [done|]. split; [done|]. eexists. split; [done|].
    simpl. rewrite <- Hs at 3. by rewrite !app_assoc.
  - eexists _, _. split; [done|]. split; [done|]. simpl bufio.wr.
    rewrite append_written. eexists. split; [done|].
    simpl. rewrite <- Hs at 3. by rewrite app_nil_r, !app_assoc.
Qed.

(** ** The loop of [replaceInLargeFile] *)

Lemma Scan_Token_shorter r text rest :
  bufio.Scan r = bufio.Token text rest → (length rest < length r)%nat.
Proof.
  destruct (first_newline r) as [Hno|(l & rest' & -> & Hl)].
  - destruct (decide (r = [])) as [->|Hne]; [done|].
    rewrite Scan_last by done. case_bool_decide; [|done].
    intros [= _ <-]. destruct r; [done|simpl; lia].
  - rewrite Scan_line by done. case_bool_decide; [|done].
    intros [= _ <-]. rewrite length_app. simpl. lia.
Qed.

Lemma scan_loop_spec ctx search replace tmp base fuel :
  ∀ r k w fs out,
    (length r ≤ fuel)%nat →
    written tmp base out w fs →
    ∃ w' fs',
      scan_loop fuel ctx search replace r k w fs =
        Some (fst (rewrite_tokens ctx search replace
                     (fst (scan_tokens fuel r)) (snd (scan_tokens fuel r)) k out), w', fs') ∧
      written tmp base
        (snd (rewrite_tokens ctx search replace
                (fst (scan_tokens fuel r)) (snd (scan_tokens fuel r)) k out)) w' fs'.
Proof.
  induction fuel as [|fuel IH]; intros r k w fs out Hr Hw.
  - destruct r; [|simpl in Hr; lia]. simpl. eauto.
  - simpl scan_loop. simpl scan_tokens.
    destruct (bufio.Scan r) as [text rest|err] eqn:HS.
    + apply Scan_Token_shorter in HS.
      destruct (scan_tokens fuel rest) as [ts e] eqn:HT. simpl.
      destruct (ctx_Done ctx k); [simpl; eauto|].
      destruct (WriteString_written _ _ _ _ _
                  (strings.ReplaceAll text search replace ++ [newline]) Hw)
        as (w1 & fs1 & -> & Hw1).
      destruct (IH rest (S k) w1 fs1 _ ltac:(lia) Hw1) as (w' & fs' & E & Hw').
      rewrite HT in E, Hw'. simpl in E, Hw'. eauto.
    + simpl. eauto.
Qed.

(** ** [replaceInLargeFile] as a function of the tokens *)

Lemma TempName_fresh (fs : filesystem) : fs !! os.TempName fs = None.
Proof. apply fresh_string_fresh. Qed.

Lemma replaceInLargeFile_spec ctx path search replace (fs : filesystem) input :
  fs !! path = Some (Regular input) →
  replaceInLargeFile ctx path search replace fs =
  Some (match rewrite_tokens ctx search replace
                (fst (Tokens input)) (snd (Tokens input)) 0 [] with
        | (Some err, _) => (Some err, fs)
        | (None, out) => (None, <[path := Regular out]> fs)
        end).
Proof.
  intros Hpath. unfold replaceInLargeFile, os.Open, os.CreateTemp. rewrite Hpath.
  pose proof (TempName_fresh fs) as Htmp. set (tmp := os.TempName fs) in *.
  assert (tmp ≠ path) as Hne by (intros ->; congruence).
  unfold os.read. rewrite lookup_insert_ne, Hpath by done.
  destruct (scan_loop_spec ctx search replace tmp fs (length input) input 0%nat
              (bufio.NewWriter tmp) (<[tmp := Regular []]> fs) [])
    as (w' & fs' & -> & Hw'); [done| |].
  { split; [done|]. by exists []. }
  fold (Tokens input) in *.
  destruct (rewrite_tokens ctx search replace (Tokens input).1 (Tokens input).2 0 [])
    as [[err|] out]; cbn [fst snd] in *.
  - destruct Hw' as (_ & d & -> & _). unfold os.Remove.
    rewrite lookup_insert_eq. simpl. by rewrite delete_insert_eq, delete_id.
  - rewrite (Flush_written _ _ _ _ _ Hw'). unfold os.Rename.
    rewrite lookup_insert_eq, lookup_insert_ne, Hpath by done. simpl.
    rewrite delete_insert_eq, delete_id by done. unfold os.Remove.
    by rewrite lookup_insert_ne, Htmp by done.
Qed.

Lemma rewrite_tokens_alive ctx search replace ts e :
  ∀ k out,
    (∀ j, (j < length ts)%nat → ctx_Done ctx (k + j) = false) →
    rewrite_tokens ctx search replace ts e k out =
    (e, out ++ join_lines (map (λ t, strings.ReplaceAll t search replace) ts)).
Proof.
  induction ts as [|t ts IH]; intros k out Halive; simpl.
  - by rewrite app_nil_r.
  - rewrite <- (Nat.add_0_r k) at 1. rewrite Halive by (simpl; lia).
    rewrite IH.
    + unfold join_lines. simpl. by rewrite <- !app_assoc.
    + intros j Hj. replace (S k + j)%nat with (k + S j)%nat by lia.
      apply Halive. simpl. lia.
Qed.

Lemma rewrite_tokens_fired ctx search replace ts e n :
  fires_at ctx = Some n →
  ∀ k out,
    (k ≤ n < k + length ts)%nat →
    fst (rewrite_tokens ctx search replace ts e k out) = Some (ctx_Err ctx).
Proof.
  intros Hn. induction ts as [|t ts IH]; intros k out Hk; simpl in *.
  - lia.
  - unfold ctx_Done at 1. rewrite Hn. case_bool_decide; [done|].
    apply IH. lia.
Qed.

Lemma rewrite_tokens_nil_error ctx search replace ts e :
  ∀ k out out',
    rewrite_tokens ctx search replace ts e k out = (None, out') →
    e = None ∧
    out' = out ++ join_lines (map (λ t, strings.ReplaceAll t search replace) ts).
Proof.
  induction ts as [|t ts IH]; intros k out out'; simpl.
  - intros [= -> <-]. by rewrite app_nil_r.
  - destruct (ctx_Done ctx k); [done|]. intros H.
    apply IH in H as [-> ->]. split; [done|].
    unfold join_lines. simpl. by rewrite <- !app_assoc.
Qed.

Lemma rewrite_tokens_error ctx search replace ts e :
  ∀ k out err,
    fst (rewrite_tokens ctx search replace ts e k out) = Some err →
    e = Some err ∨ (err = ctx_Err ctx ∧ ∃ n, fires_at ctx = Some n ∧ (n < k + length ts)%nat).
Proof.
  induction ts as [|t ts IH]; intros k out err; simpl.
  - intros ->. by left.
  - destruct (ctx_Done ctx k) eqn:Hd.
    + intros [= <-]. right. split; [done|]. unfold ctx_Done in Hd.
      destruct (fires_at ctx) as [n|]; [|done].
      apply bool_decide_eq_true in Hd. exists n. split; [done|lia].
    + intros H. apply IH in H as [H|(-> & n & Hn & Hlt)]; [by left|].
      right. split; [done|]. exists n. split; [done|lia].
Qed.

(** ** The line of ['x'] bytes *)

Lemma len_xs n : 0 <= n → len (xs n) = n.
Proof. intros Hn. unfold len, xs. rewrite length_replicate. lia. Qed.

Lemma newline_not_in_xs n : newline ∉ xs n.
Proof. unfold xs. intros [H _]%elem_of_replicate. done. Qed.

Lemma xs_nonempty n : 0 < n → xs n ≠ [].
Proof.
  intros Hn H. apply (f_equal len) in H. rewrite len_xs in H by lia.
  change (len []) with 0 in H. lia.
Qed.

Global Opaque xs.

(** ** [replaceInFile] *)

Lemma replaceInFile_spec (fs : filesystem) path content search replace :
  fs !! path = Some (Regular content) →
  replaceInFile path search replace fs =
  (None, <[path := Regular (strings.ReplaceAll content search replace)]> fs).
Proof.
  intros H. unfold replaceInFile, os.OpenFile_RDWR, os.read, os.WriteFile.
  by rewrite H.
Qed.

(** ** Success of [replaceInLargeFile] *)

Lemma deliver_nil_error ls ts :
  deliver ls = (ts, None) → Forall fits ls ∧ ts = map bufio.dropCR ls.
Proof.
  revert ts. induction ls as [|l ls IH]; intros ts; simpl.
  - intros [= <-]. done.
  - case_bool_decide as Hl; [|done].
    destruct (deliver ls) as [ts' e'] eqn:E. intros [= <- ->].
    destruct (IH _ eq_refl) as [Hall ->]. split; [by constructor|done].
Qed.

Lemma replaceInLargeFile_success ctx path search replace (fs fs' : filesystem) input :
  fs !! path = Some (Regular input) →
  replaceInLargeFile ctx path search replace fs = Some (None, fs') ↔
  Forall fits (split_lines input) ∧
  (∀ j, (j < length (split_lines input))%nat → ctx_Done ctx j = false) ∧
  fs' = <[path := Regular (rewritten input search replace)]> fs.
Proof.
  intros Hpath. rewrite (replaceInLargeFile_spec _ _ _ _ _ _ Hpath), Tokens_lines.
  split.
  - destruct (deliver (split_lines input)) as [ts e] eqn:E. cbn [fst snd].
    destruct (rewrite_tokens ctx search replace ts e 0 []) as [[err|] out] eqn:R; [done|].
    intros [= <-].
    pose proof R as R'. apply rewrite_tokens_nil_error in R' as [-> ->].
    apply deliver_nil_error in E as [Hfit ->].
    split; [done|]. split.
    + intros j Hj. destruct (ctx_Done ctx j) eqn:Hd; [|done].
      unfold ctx_Done in Hd. destruct (fires_at ctx) as [n|] eqn:Hn; [|done].
      apply bool_decide_eq_true in Hd.
      pose proof (rewrite_tokens_fired ctx search replace (map bufio.dropCR (split_lines input))
                    None n Hn 0%nat []) as Hf.
      rewrite R, length_map in Hf. discriminate Hf. lia.
    + unfold rewritten. by rewrite map_map.
  - intros (Hfit & Halive & ->). rewrite (deliver_fits _ Hfit). cbn [fst snd].
    rewrite rewrite_tokens_alive by (by rewrite length_map).
    unfold rewritten. by rewrite map_map.
Qed.

Lemma fits_small l : len l < bufio.MaxScanTokenSize → bool_decide (fits l) = true.
Proof. intros H. by apply bool_decide_eq_true_2. Qed.

(** C1 (as amended).  On an existing regular file, when the context
    fires at poll number [n] and the scanner delivers more than [n] lines
    (the loop polls once before every line it is handed; [n = 0] is a
    deadline that has expired before the call), [replaceInLargeFile]
    returns the cancellation error and leaves the file system as it was:
    the bytes of the file are unchanged and the temporary file is gone. *)
Theorem large_file_cancellation ctx path search replace (fs : filesystem) input n :
  fs !! path = Some (Regular input) →
  fires_at ctx = Some n →
  (n < length (fst (Tokens input)))%nat →
  replaceInLargeFile ctx path search replace fs = Some (Some (ctx_Err ctx), fs).
Proof.
  intros Hpath Hn Hlt. rewrite (replaceInLargeFile_spec _ _ _ _ _ _ Hpath).
  pose proof (rewrite_tokens_fired ctx search replace (Tokens input).1 (Tokens input).2
                n Hn 0%nat [] ltac:(lia)) as H.
  destruct (rewrite_tokens _ _ _ _ _ _ _) as [e out]. simpl in H. by subst e.
Qed.

Lemma large_file_cancellation_witness :
  replaceInLargeFile expired a_txt (B "world") (B "gopher") (one_file (B "hello world")) =
  Some (Some context_DeadlineExceeded, one_file (B "hello world")).
Proof.
  apply (large_file_cancellation expired a_txt (B "world") (B "gopher")
           (one_file (B "hello world")) (B "hello world") 0).
  - reflexivity.
  - reflexivity.
  - rewrite Tokens_lines. vm_compute. lia.
Defined.

Lemma large_file_cancellation_empty_file :
  fires_at expired = Some 0%nat ∧
  one_file [] !! a_txt = Some (Regular []) ∧
  replaceInLargeFile expired a_txt (B "world") (B "gopher") (one_file []) =
    Some (None, one_file []) ∧
  replaceInLargeFile expired a_txt (B "world") (B "gopher") (one_file []) ≠
    Some (Some (ctx_Err expired), one_file []).
Proof.
  assert (replaceInLargeFile expired a_txt (B "world") (B "gopher") (one_file []) =
          Some (None, one_file [])) as H.
  { rewrite (replaceInLargeFile_spec _ _ _ _ _ []) by reflexivity.
    rewrite Tokens_lines. simpl. unfold one_file. by rewrite insert_singleton_eq. }
  split; [done|]. split; [done|]. split; [done|]. by rewrite H.
Qed.

(** C2 (as amended).  For a non-empty [search], [replaceInFile] succeeds
    on an existing regular file and leaves it holding the left-to-right
    replacement of every non-overlapping occurrence of [search] by
    [replace]; on "hello world" with "world" and "gopher" the small path
    gives "hello gopher" and the large path, when the context does not
    fire, "hello gopher" followed by a newline. *)
Theorem replaceInFile_literal (fs : filesystem) path content search replace :
  search ≠ [] →
  fs !! path = Some (Regular content) →
  replaceInFile path search replace fs =
    (None, <[path := Regular (literal_replace content search replace)]> fs) ∧
  (content = B "hello world" → search = B "world" → replace = B "gopher" →
   replaceInFile path search replace fs =
     (None, <[path := Regular (B "hello gopher")]> fs) ∧
   ∀ ctx, fires_at ctx = None →
     replaceInLargeFile ctx path search replace fs =
       Some (None, <[path := Regular (B "hello gopher" ++ [newline])]> fs)).
Proof.
  intros Hs Hpath. split.
  - rewrite (replaceInFile_spec _ _ _ _ _ Hpath). by rewrite ReplaceAll_literal.
  - intros -> -> ->. split.
    + by rewrite (replaceInFile_spec _ _ _ _ _ Hpath).
    + intros ctx Hctx.
      apply (replaceInLargeFile_success _ _ _ _ _ _ _ Hpath).
      split; [|split].
      * repeat constructor.
      * intros j _. unfold ctx_Done. by rewrite Hctx.
      * done.
Qed.

Lemma replaceInFile_literal_witness :
  replaceInFile a_txt (B "foo") (B "baz") (one_file (B "foo bar foo")) =
    (None, one_file (B "baz bar baz")).
Proof.
  destruct (replaceInFile_literal (one_file (B "foo bar foo")) a_txt
              (B "foo bar foo") (B "foo") (B "baz")) as [H _].
  - discriminate.
  - reflexivity.
  - rewrite H. vm_compute. reflexivity.
Defined.

Lemma replaceInFile_empty_search :
  replaceInFile a_txt [] (B "-") (one_file (B "ab")) = (None, one_file (B "-a-b-")) ∧
  literal_replace (B "ab") [] (B "-") = B "ab" ∧
  one_file (B "-a-b-") ≠ one_file (literal_replace (B "ab") [] (B "-")).
Proof.
  split; [by vm_compute|]. split; [done|].
  intros H. apply (f_equal (.!! a_txt)) in H. vm_compute in H. discriminate.
Qed.

(** C6 (as amended).  [replaceInLargeFile] succeeds on a regular file
    exactly when every line of the input fits the scanner's buffer and no
    poll before a line finds the context done; the file then holds, for
    every line of the input, the line without its terminal carriage
    return, with the replacement applied, followed by one newline.  An
    empty input gives an empty output. *)
Theorem large_file_lines ctx path search replace (fs fs' : filesystem) input :
  fs !! path = Some (Regular input) →
  (replaceInLargeFile ctx path search replace fs = Some (None, fs') ↔
   Forall fits (split_lines input) ∧
   (∀ j, (j < length (split_lines input))%nat → ctx_Done ctx j = false) ∧
   fs' = <[path := Regular (rewritten input search replace)]> fs) ∧
  (input = [] → rewritten input search replace = []).
Proof.
  intros Hpath. split; [by apply replaceInLargeFile_success|].
  by intros ->.
Qed.

Lemma large_file_lines_witness :
  replaceInLargeFile background a_txt (B "foo") (B "baz") (one_file (B "foo bar foo")) =
  Some (None, one_file (B "baz bar baz" ++ [newline])).
Proof.
  destruct (large_file_lines background a_txt (B "foo") (B "baz")
              (one_file (B "foo bar foo")) (one_file (B "baz bar baz" ++ [newline]))
              (B "foo bar foo")) as [H _].
  - reflexivity.
  - apply H. split; [|split].
    + repeat constructor.
    + reflexivity.
    + vm_compute. reflexivity.
Defined.

Lemma large_file_drops_carriage_return :
  replaceInLargeFile background a_txt (B "x") (B "y") (one_file crlf) =
    Some (None, one_file (B "a" ++ [newline] ++ B "b" ++ [newline])) ∧
  join_lines (map (λ l, strings.ReplaceAll l (B "x") (B "y")) (split_lines crlf)) =
    B "a" ++ [carriage_return; newline] ++ B "b" ++ [newline] ∧
  B "a" ++ [newline] ++ B "b" ++ [newline] ≠
    B "a" ++ [carriage_return; newline] ++ B "b" ++ [newline].
Proof. split; [by vm_compute|]. split; [by vm_compute|]. by vm_compute. Qed.

(** C7 (as amended).  With an empty [search] the small path writes
    [replace] before the first byte and after every UTF-8 sequence of the
    content, and the large path does so on every line; the replacement
    leaves a content as it is exactly when [replace] is empty as well. *)
Theorem empty_search_inserts (fs : filesystem) path content replace :
  fs !! path = Some (Regular content) →
  replaceInFile path [] replace fs =
    (None, <[path := Regular (if bool_decide (replace = []) then content
                               else insert_at_runes content replace)]> fs) ∧
  (strings.ReplaceAll content [] replace = content ↔ replace = []) ∧
  (∀ ctx fs',
     replaceInLargeFile ctx path [] replace fs = Some (None, fs') →
     fs' = <[path := Regular
               (join_lines
                  (map (λ l, if bool_decide (replace = []) then bufio.dropCR l
                             else insert_at_runes (bufio.dropCR l) replace)
                       (split_lines content)))]> fs).
Proof.
  intros Hpath.
  assert (∀ s, strings.ReplaceAll s [] replace =
               if bool_decide (replace = []) then s else insert_at_runes s replace) as HR.
  { intros s. case_bool_decide as Hr.
    - by apply ReplaceAll_empty_old_id.
    - by apply ReplaceAll_empty_old. }
  split; [|split].
  - by rewrite (replaceInFile_spec _ _ _ _ _ Hpath), HR.
  - apply ReplaceAll_empty_old_id.
  - intros ctx fs' H.
    apply (replaceInLargeFile_success _ _ _ _ _ _ _ Hpath) in H as (_ & _ & ->).
    unfold rewritten. do 3 f_equal. apply map_ext. intros l. apply HR.
Qed.

Lemma empty_search_inserts_witness :
  replaceInFile a_txt [] (B "-") (one_file (B "ab")) = (None, one_file (B "-a-b-")).
Proof.
  destruct (empty_search_inserts (one_file (B "ab")) a_txt (B "ab") (B "-")) as [H _].
  - reflexivity.
  - rewrite H. vm_compute. reflexivity.
Defined.

Lemma empty_search_not_noop :
  replaceInFile a_txt [] (B "yz") (one_file (B "x")) = (None, one_file (B "yzxyz")) ∧
  replaceInLargeFile background a_txt [] (B "yz") (one_file (B "x" ++ [newline])) =
    Some (None, one_file (B "yzxyz" ++ [newline])) ∧
  one_file (B "yzxyz") ≠ one_file (B "x") ∧
  one_file (B "yzxyz" ++ [newline]) ≠ one_file (B "x" ++ [newline]).
Proof.
  split; [by vm_compute|]. split; [by vm_compute|].
  split; intros H; apply (f_equal (.!! a_txt)) in H; vm_compute in H; discriminate.
Qed.

(** C9 (as amended).  On a regular file with a line longer than the
    maximum token size of the scanner, [replaceInLargeFile] returns an
    error and leaves the file system as it was (the file unchanged, the
    temporary file removed and not renamed); the error is [ErrTooLong]
    unless a poll before one of the lines delivered earlier found the
    context done, in which case it is the error of the context. *)
Theorem large_file_long_line ctx path search replace (fs : filesystem) input l :
  fs !! path = Some (Regular input) →
  l ∈ split_lines input →
  bufio.MaxScanTokenSize < len l →
  ∃ err,
    replaceInLargeFile ctx path search replace fs = Some (Some err, fs) ∧
    (err = bufio_ErrTooLong ∨
     err = ctx_Err ctx ∧ ∃ n, fires_at ctx = Some n ∧ (n < length (Tokens input).1)%nat) ∧
    (fires_at ctx = None → err = bufio_ErrTooLong).
Proof.
  intros Hpath Hl Hlong.
  rewrite (replaceInLargeFile_spec _ _ _ _ _ _ Hpath).
  assert (¬ Forall fits (split_lines input)) as Hnot.
  { intros Hall. rewrite Forall_forall in Hall. specialize (Hall l Hl).
    unfold fits in Hall. lia. }
  rewrite Tokens_lines.
  destruct (deliver_too_long _ Hnot) as (ts & E & _). rewrite E. cbn [fst snd].
  destruct (rewrite_tokens ctx search replace ts (Some bufio_ErrTooLong) 0 [])
    as [[err|] out] eqn:R.
  - exists err. split; [done|].
    pose proof (rewrite_tokens_error ctx search replace ts (Some bufio_ErrTooLong) 0 [] err) as H.
    rewrite R in H. destruct (H eq_refl) as [[= <-]|(-> & n & Hn & Hlt)].
    + split; [by left|done].
    + split; [right; eauto|]. intros Hnone. congruence.
  - apply rewrite_tokens_nil_error in R as [? _]. done.
Qed.

Lemma large_file_long_line_witness :
  replaceInLargeFile background a_txt (B "x") (B "y") (one_file (xs 65537)) =
  Some (Some bufio_ErrTooLong, one_file (xs 65537)).
Proof.
  destruct (large_file_long_line background a_txt (B "x") (B "y")
              (one_file (xs 65537)) (xs 65537) (xs 65537)) as (err & H & _ & Herr).
  - apply lookup_singleton_eq.
  - rewrite split_lines_last.
    + apply list_elem_of_here.
    + apply newline_not_in_xs.
    + apply xs_nonempty. reflexivity.
  - rewrite len_xs; [reflexivity|discriminate].
  - rewrite H, Herr; reflexivity.
Defined.

Lemma large_file_long_line_cancelled :
  one_file (B "a" ++ newline :: xs 65537) !! a_txt = Some (Regular (B "a" ++ newline :: xs 65537)) ∧
  xs 65537 ∈ split_lines (B "a" ++ newline :: xs 65537) ∧
  bufio.MaxScanTokenSize < len (xs 65537) ∧
  replaceInLargeFile expired a_txt (B "x") (B "y") (one_file (B "a" ++ newline :: xs 65537)) =
    Some (Some context_DeadlineExceeded, one_file (B "a" ++ newline :: xs 65537)) ∧
  context_DeadlineExceeded ≠ bufio_ErrTooLong.
Proof.
  assert (split_lines (B "a" ++ newline :: xs 65537) = [B "a"; xs 65537]) as Hlines.
  { rewrite split_lines_line.
    2:{ change (B "a") with ["a"%char]. by intros [|[]%elem_of_nil]%elem_of_cons. }
    rewrite split_lines_last; [done|apply newline_not_in_xs|by apply xs_nonempty]. }
  split; [apply lookup_singleton_eq|]. split; [rewrite Hlines; apply list_elem_of_further, list_elem_of_here|].
  split; [by rewrite len_xs|]. split; [|done].
  rewrite (replaceInLargeFile_spec _ _ _ _ _ (B "a" ++ newline :: xs 65537))
    by apply lookup_singleton_eq.
  rewrite Tokens_lines, Hlines. cbn [deliver].
  rewrite fits_small by done.
  rewrite (bool_decide_eq_false_2 (fits (xs 65537))); [done|].
  unfold fits. rewrite len_xs by done. done.
Qed.

(** ** Replacing twice *)

Lemma scan_replace_length old new s :
  old ≠ [] → (length new ≤ length old)%nat →
  (length (scan_replace old new 0 s) ≤ length s)%nat.
Proof.
  intros Hold Hlen. remember (length s) as n eqn:Hn. revert s Hn.
  induction n as [n IH] using lt_wf_ind. intros s ->.
  destruct (first_occurrence old s) as [j|] eqn:F.
  - rewrite (scan_replace_first_Some _ _ _ j) by done.
    destruct (first_occurrence_Some _ _ _ F) as (t & H1 & H2 & H3).
    rewrite H2. rewrite !length_app, length_take.
    assert (length t = length s - (j + length old))%nat as Ht
      by (rewrite <- H2; apply length_drop).
    assert (0 < length old)%nat by (destruct old; [done|simpl; lia]).
    specialize (IH (length t) ltac:(lia) t eq_refl). lia.
  - by rewrite scan_replace_first_None.
Qed.

Lemma occurs_first old s : occurs old s ↔ is_Some (first_occurrence old s).
Proof. symmetry. apply first_occurrence_occurs. Qed.

Lemma not_occurs_first old s : ¬ occurs old s ↔ first_occurrence old s = None.
Proof. rewrite occurs_first. symmetry. apply eq_None_not_Some. Qed.

Lemma ReplaceAll_fixpoint t old new :
  old ≠ [] → ¬ occurs old new →
  strings.ReplaceAll t old new = t ↔ ¬ occurs old t.
Proof.
  intros Hold Hnew. rewrite ReplaceAll_scan by done. split.
  - intros Heq Hocc. apply occurs_first in Hocc as [j F].
    rewrite (scan_replace_first_Some _ _ _ j) in Heq by done.
    destruct (first_occurrence_Some _ _ _ F) as (rest & H1 & H2 & H3).
    rewrite H2 in Heq.
    assert (take j t ++ new ++ scan_replace old new 0 rest = take j t ++ old ++ rest)
      as Heq' by (rewrite Heq; exact H1).
    clear Heq. apply app_inv_head in Heq'. rename Heq' into Heq.
    destruct (decide (length old ≤ length new)%nat) as [Hle|Hlt].
    + apply Hnew. exists 0%nat. unfold occurs_at. rewrite drop_0.
      apply HasPrefix_true. exists (drop (length old) new).
      apply (f_equal (take (length old))) in Heq.
      rewrite take_app_le, take_app_length in Heq by done.
      rewrite <- Heq at 1. by rewrite take_drop.
    + apply (f_equal length) in Heq. rewrite !length_app in Heq.
      pose proof (scan_replace_length old new rest Hold ltac:(lia)). lia.
  - intros Hno. apply not_occurs_first in Hno. by apply scan_replace_first_None.
Qed.

(** C8 (as amended).  For a non-empty [search] and a [replace] in which
    [search] does not occur, running [replaceInFile] a second time leaves
    the file system as the first run left it exactly when [search] does
    not occur in the content that the first run wrote. *)
Theorem replace_twice (fs : filesystem) path content search replace :
  search ≠ [] → ¬ occurs search replace →
  fs !! path = Some (Regular content) →
  let once := (replaceInFile path search replace fs).2 in
  let twice := (replaceInFile path search replace once).2 in
  once !! path = Some (Regular (literal_replace content search replace)) ∧
  (twice = once ↔ ¬ occurs search (literal_replace content search replace)).
Proof.
  intros Hs Hr Hpath once twice.
  assert (once = <[path := Regular (literal_replace content search replace)]> fs) as Honce.
  { unfold once. rewrite (replaceInFile_spec _ _ _ _ _ Hpath). by rewrite ReplaceAll_literal. }
  assert (once !! path = Some (Regular (literal_replace content search replace))) as Hlook
    by (rewrite Honce; apply lookup_insert_eq).
  split; [done|].
  unfold twice. rewrite (replaceInFile_spec _ _ _ _ _ Hlook). cbn [snd].
  rewrite <- (ReplaceAll_fixpoint _ search replace) by done.
  split.
  - intros H. apply (f_equal (.!! path)) in H.
    rewrite lookup_insert_eq, Hlook in H. by injection H.
  - intros ->. by apply insert_id.
Qed.

Lemma replace_twice_witness :
  (replaceInFile a_txt (B "foo") (B "baz")
     (replaceInFile a_txt (B "foo") (B "baz") (one_file (B "foo bar foo"))).2).2 =
  (replaceInFile a_txt (B "foo") (B "baz") (one_file (B "foo bar foo"))).2.
Proof.
  destruct (replace_twice (one_file (B "foo bar foo")) a_txt (B "foo bar foo")
              (B "foo") (B "baz")) as [_ H].
  - discriminate.
  - apply not_occurs_first. reflexivity.
  - reflexivity.
  - apply H. apply not_occurs_first. vm_compute. reflexivity.
Defined.

Lemma replace_twice_differs :
  B "ab" ≠ [] ∧
  ¬ occurs (B "ab") (B "b") ∧
  strings.ReplaceAll (B "aab") (B "ab") (B "b") = B "ab" ∧
  strings.ReplaceAll (strings.ReplaceAll (B "aab") (B "ab") (B "b")) (B "ab") (B "b") = B "b" ∧
  (replaceInFile a_txt (B "ab") (B "b") (one_file (B "aab"))).2 = one_file (B "ab") ∧
  (replaceInFile a_txt (B "ab") (B "b")
     (replaceInFile a_txt (B "ab") (B "b") (one_file (B "aab"))).2).2 = one_file (B "b") ∧
  one_file (B "b") ≠ one_file (B "ab").
Proof.
  split; [done|]. split; [by apply not_occurs_first|].
  do 4 (split; [by vm_compute|]).
  intros H. apply (f_equal (.!! a_txt)) in H. vm_compute in H. discriminate.
Qed.



(** ** [filepath.Walk] *)


Lemma node_induction (P : node → Prop) :
  (∀ size, P (File size)) →
  (∀ e, P (NoStat e)) →
  (∀ listing entries, Forall (λ x, P x.2) entries → P (Dir listing entries)) →
  ∀ n, P n.
Proof.
  intros HF HN HD. fix IH 1. intros [size|listing entries|e]; [apply HF| |apply HN].
  apply HD. induction entries as [|[name c] entries IHe]; constructor; [apply IH|apply IHe].
Qed.

Lemma string_length_app (s1 s2 : string) :
  String.length (s1 +:+ s2) = (String.length s1 + String.length s2)%nat.
Proof. induction s1 as [|c s1 IH]; simpl; [done|]. by rewrite IH. Qed.

Lemma Join_length path name :
  (String.length path < String.length (filepath.Join path name))%nat.
Proof. unfold filepath.Join. rewrite !string_length_app. simpl. lia. Qed.

Lemma depth_entry listing entries name c :
  (name, c) ∈ entries → (depth c < depth (Dir listing entries))%nat.
Proof.
  simpl. induction entries as [|[n' c'] entries IH]; intros Hin.
  - by apply elem_of_nil in Hin.
  - apply elem_of_cons in Hin as [[= <- <-]|Hin]; [lia|].
    specialize (IH Hin). lia.
Qed.

Lemma at_path_cases root info q c :
  at_path root info q c →
  (q = root ∧ c = info) ∨
  ((String.length root < String.length q)%nat ∧ (depth c < depth info)%nat).
Proof.
  induction 1 as [|p listing entries name c Hp IH Hin]; [by left|right].
  pose proof (Join_length p name). pose proof (depth_entry listing _ _ _ Hin).
  destruct IH as [[-> <-]|[? ?]]; split; lia.
Qed.

Lemma at_path_trans root info q c p n :
  at_path root info q c → at_path q c p n → at_path root info p n.
Proof.
  intros Hq. induction 1; [done|]. by eapply at_entry.
Qed.

Lemma advances_refl good st : advances good st st.
Proof. exists []. by rewrite app_nil_r. Qed.

Lemma advances_trans good st1 st2 st3 :
  advances good st1 st2 → advances good st2 st3 → advances good st1 st3.
Proof.
  intros (t1 & E1 & F1 & P1) (t2 & E2 & F2 & P2). exists (t1 ++ t2).
  rewrite E2, E1, app_assoc. split; [done|]. split; [by apply Forall_app|lia].
Qed.

Lemma advances_mono (good good' : event → Prop) st st' :
  (∀ e, good e → good' e) → advances good st st' → advances good' st st'.
Proof.
  intros H (t & E & F & P). exists t. split; [done|]. split; [|done].
  eapply Forall_impl; done.
Qed.

Lemma advances_emit good e st :
  good e → ∃ st', emit e st = Some (tt, st') ∧ advances good st st' ∧ errs st' = errs st.
Proof.
  intros He. eexists. split; [done|]. split; [|done].
  exists [e]. simpl. split; [done|]. split; [by constructor|lia].
Qed.

(** [filepath.Walk] with a callback that returns on every entry *)
Section walk_returns.
Context (root : string) (info : node) (fn : filepath.WalkFunc).
Context (R : wstate → wstate → Prop).
Hypothesis R_trans : ∀ st1 st2 st3, R st1 st2 → R st2 st3 → R st1 st3.
Hypothesis fn_returns :
  ∀ q c st, at_path root info q c →
    ∃ r st', fn q c (stat_err c) st = Some (r, st') ∧ R st st'.

Lemma visit_returns c :
  ∀ q st, at_path root info q c →
    ∃ r st', visit q c fn st = Some (r, st') ∧ R st st'.
Proof.
  induction c as [size|e|listing entries IH] using node_induction; intros q st Hq.
  - apply (fn_returns q (File size) st Hq).
  - apply (fn_returns q (NoStat e) st Hq).
  - simpl. unfold mbind, W_bind at 1.
    destruct (fn_returns q _ st Hq) as (err1 & st1 & E1 & HR1). simpl stat_err in E1.
    rewrite E1.
    destruct (bool_decide (listing ≠ None) || bool_decide (err1 ≠ None)).
    { eexists _, _. split; [done|]. done. }
    assert (∀ name c, (name, c) ∈ entries → at_path root info (filepath.Join q name) c) as Hsub.
    { intros name c Hin. by eapply at_entry. }
    clear Hq E1. revert st1 HR1.
    induction entries as [|[name c] entries IHe]; intros st1 HR1.
    { eexists _, _. split; [done|]. done. }
    apply Forall_cons in IH as [IHc IH].
    specialize (IHe IH (λ n' c' Hin, Hsub n' c' (list_elem_of_further _ _ _ Hin))).
    specialize (IHc (filepath.Join q name) st1 (Hsub name c (list_elem_of_here _ _))).
    destruct IHc as (r & st2 & E & HR2).
    assert (R st st2) as HR by eauto.
    destruct c as [size|l' es'|e]; simpl in E |- *.
    + unfold mbind, W_bind at 1. rewrite E.
      destruct (_ && _); [eexists _, _; split; [done|]; done|]. by apply IHe.
    + unfold mbind, W_bind at 1. simpl in E. unfold mbind in E. rewrite E.
      destruct (_ && _); [eexists _, _; split; [done|]; done|]. by apply IHe.
    + unfold mbind, W_bind at 1. rewrite E.
      destruct (_ && _); [eexists _, _; split; [done|]; done|]. by apply IHe.
Qed.

Lemma Walk_returns st :
  ∃ r st', filepath.Walk root info fn st = Some (r, st') ∧ R st st'.
Proof.
  unfold filepath.Walk. unfold mbind, W_bind.
  fold (visit root info fn).
  destruct (visit_returns info root st (at_root _ _)) as (r & st' & -> & HR).
  destruct (_ || _); eexists _, _; (split; [done|]); done.
Qed.
End walk_returns.

Lemma walk_event_mono root info q c e :
  at_path root info q c →
  walk_event q c e → walk_event root info e.
Proof.
  intros Hq. destruct e as [qu p|qu|p|p]; simpl; try done.
  intros (Hlen & size & Hp & ->). split.
  - destruct (at_path_cases _ _ _ _ Hq) as [[-> _]|[? _]]; lia.
  - exists size. split; [by eapply at_path_trans|done].
Qed.

(** ** The walker of part_000 *)

Lemma walkDir_returns fuel :
  ∀ ctx path info st,
    (0 < fuel)%nat → (depth info ≤ fuel)%nat →
    ∃ r st', Part000.walkDir fuel ctx path info st = Some (r, st') ∧
             advances (walk_event path info) st st'.
Proof.
  induction fuel as [|fuel IH]; intros ctx path info st Hpos Hdepth; [lia|].
  simpl Part000.walkDir. unfold mbind at 1, W_bind at 1.
  destruct (advances_emit (walk_event path info) (Enter path) st I) as (st0 & -> & H0 & _).
  cut (∃ r st', filepath.Walk path info
         (λ path0 info0 err,
            fired ← poll ctx;
            if (fired : bool) then mret (Some (ctx_Err ctx))
            else if bool_decide (path0 = path) then mret None
            else
              emit (Walking path0) ;;
              match err with
              | Some err0 => append_err err0 ;; mret None
              | None =>
                if IsDir info0 then
                  err0 ← call (Part000.walkDir fuel ctx path0 info0);
                  match (err0 : option error) with
                  | Some err1 => append_err err1 ;; mret None
                  | None => mret None
                  end
                else if maxFileSize <? Size info0 then
                  emit (Send largeFiles path0) ;; mret None
                else
                  emit (Send smallFiles path0) ;; mret None
              end) st0 = Some (r, st') ∧ advances (walk_event path info) st0 st').
  { intros (r & st' & E & H). exists r, st'. split; [exact E|].
    by eapply advances_trans. }
  apply Walk_returns; [intros ???; apply advances_trans|].
  clear st st0 H0. intros q c st Hq.
  unfold mbind at 1, W_bind at 1, poll.
  set (st1 := mkWstate (trace st) (S (polls st)) (errs st)).
  assert (advances (walk_event path info) st st1) as H1.
  { exists []. simpl. rewrite app_nil_r. repeat split; [constructor|lia]. }
  destruct (ctx_Done ctx (polls st)); [by eexists _, _|].
  case_bool_decide as Hroot; [by eexists _, _|].
  destruct (at_path_cases _ _ _ _ Hq) as [[? _]|[Hlen Hd]]; [done|].
  unfold mbind at 1, W_bind at 1.
  destruct (advances_emit (walk_event path info) (Walking q) st1 I) as (st2 & -> & H2 & _).
  assert (advances (walk_event path info) st st2) as H12 by (by eapply advances_trans).
  assert (∀ e st, ∃ st', (append_err e ;; mret None) st = Some (@None error, st') ∧
                        advances (walk_event path info) st st') as Happ.
  { intros e s. eexists. split; [done|]. exists []. simpl. rewrite app_nil_r.
    repeat split; [constructor|lia]. }
  destruct c as [size|listing entries|e]; cbn [stat_err IsDir Size].
  - (* a file *)
    assert (walk_event path info (Send (classify size) q)) as Hgood.
    { split; [done|]. by exists size. }
    unfold classify in Hgood.
    destruct (maxFileSize <? size);
      unfold mbind at 1, W_bind at 1;
      destruct (advances_emit _ _ st2 Hgood) as (st3 & -> & H3 & _);
      eexists _, _; (split; [done|]); by eapply advances_trans.
  - (* a directory *)
    destruct listing as [err|].
    { destruct (Happ err st2) as (st3 & -> & H3). eexists _, _. split; [done|].
      by eapply advances_trans. }
    unfold mbind at 1, W_bind at 1, call.
    destruct (IH ctx q (Dir None entries) st2) as (r & st3 & -> & H3).
    { simpl in Hd |- *. lia. }
    { lia. }
    apply (advances_mono _ (walk_event path info)) in H3;
      [|intros e; by apply walk_event_mono].
    set (st4 := mkWstate (trace st3) (polls st3) (errs st2)).
    assert (advances (walk_event path info) st st4) as H4.
    { eapply advances_trans; [exact H12|]. exact H3. }
    destruct r as [err|].
    + destruct (Happ err st4) as (st5 & -> & H5). eexists _, _. split; [done|].
      by eapply advances_trans.
    + by eexists _, _.
  - (* Lstat failed *)
    destruct (Happ e st2) as (st3 & -> & H3). eexists _, _. split; [done|].
    by eapply advances_trans.
Qed.

Lemma walk_event_not_Close root info t q :
  Forall (walk_event root info) t → count_event (Close q) t = 0%nat.
Proof.
  unfold count_event. induction 1 as [|e t He _ IH]; [done|].
  rewrite filter_cons. case_decide as Heq; [by subst e|done].
Qed.

(** X20.  [walk] of part_000 returns on every tree, with an allowance of
    the depth of the tree, and closes each channel once, after everything
    else. *)
Lemma Part000_walk_closes_once fuel ctx path info st :
  (0 < fuel)%nat → (depth info ≤ fuel)%nat →
  ∃ err t n,
    Part000.walk fuel ctx path info st =
      Some (err, mkWstate (trace st ++ t ++ [Close largeFiles; Close smallFiles]) n (errs st)) ∧
    Forall (walk_event path info) t ∧
    ∀ q, count_event (Close q) (t ++ [Close largeFiles; Close smallFiles]) = 1%nat.
Proof.
  intros Hpos Hdepth. unfold Part000.walk, mbind, W_bind, call.
  destruct (walkDir_returns fuel ctx path info st Hpos Hdepth)
    as (r & st' & -> & t & Ht & Hgood & _).
  exists r, t, (polls st'). simpl. rewrite Ht, <- !app_assoc. split; [done|].
  split; [done|]. intros q. unfold count_event. rewrite filter_app, length_app.
  fold (count_event (Close q) t). rewrite (walk_event_not_Close _ _ _ _ Hgood).
  by destruct q.
Qed.

(** Every send of part_000 is of a file strictly below the root, on the
    channel chosen by its size. *)
Lemma Part000_sends_classified fuel ctx path info st :
  (0 < fuel)%nat → (depth info ≤ fuel)%nat →
  ∃ r t st',
    Part000.walkDir fuel ctx path info st = Some (r, st') ∧
    trace st' = trace st ++ t ∧
    ∀ q p, Send q p ∈ t →
      p ≠ path ∧ ∃ size, at_path path info p (File size) ∧ q = classify size.
Proof.
  intros Hpos Hdepth.
  destruct (walkDir_returns fuel ctx path info st Hpos Hdepth)
    as (r & st' & E & t & Ht & Hgood & _).
  exists r, t, st'. split; [done|]. split; [done|]. intros q p Hin.
  rewrite Forall_forall in Hgood. destruct (Hgood _ Hin) as (Hlen & size & Hp & ->).
  split; [intros ->; lia|eauto].
Qed.

(** ** The walker of main.go *)

Lemma MainGo_walk_Dir fuel path entries st :
  MainGo.walk fuel path (Dir None entries) st = None.
Proof.
  revert st. induction fuel as [|fuel IH]; intros st; [done|].
  simpl. unfold filepath.Walk, mbind, W_bind, call, emit. simpl.
  unfold mbind, W_bind. by rewrite IH.
Qed.

Lemma MainGo_walk_File fuel path size st :
  MainGo.walk (S fuel) path (File size) st =
  Some (None,
        mkWstate (trace st ++ [Enter path] ++
                  (if maxFileSize <? size then [Send largeFiles path] else []) ++
                  [Send smallFiles path; Close largeFiles; Close smallFiles])
                 (polls st) (errs st)).
Proof.
  simpl. unfold filepath.Walk, mbind, W_bind, emit. simpl.
  unfold mbind, W_bind, mret, W_ret.
  destruct (maxFileSize <? size); simpl; by rewrite <- !app_assoc.
Qed.

(** C3 (main.go at the failing input).  On a root that is a regular
    file larger than [maxFileSize], [walk] of main.go sends the path on
    [largeFiles] and then on [smallFiles] as well. *)
Theorem MainGo_walk_sends_large_file_twice fuel path size :
  maxFileSize < size →
  MainGo.walk (S fuel) path (File size) init =
  Some (None,
        mkWstate [Enter path; Send largeFiles path; Send smallFiles path;
                  Close largeFiles; Close smallFiles] 0 []).
Proof.
  intros Hsize. rewrite MainGo_walk_File.
  by replace (maxFileSize <? size) with true by (symmetry; by apply Z.ltb_lt).
Qed.

Lemma MainGo_walk_sends_large_file_twice_witness :
  MainGo.walk 1 "/big.bin" (File (maxFileSize + 1)) init =
  Some (None,
        mkWstate [Enter "/big.bin"; Send largeFiles "/big.bin"; Send smallFiles "/big.bin";
                  Close largeFiles; Close smallFiles] 0 []).
Proof.
  apply (MainGo_walk_sends_large_file_twice 0 "/big.bin" (maxFileSize + 1)).
  reflexivity.
Defined.

(** C4 (main.go at the failing input).  On a root that is a readable
    directory, [walk] of main.go does not return, whatever the allowance
    for nested calls: the callback calls [walk] again on the root itself.
    Neither channel is ever closed. *)
Theorem MainGo_walk_never_closes fuel path entries st :
  MainGo.walk fuel path (Dir None entries) st = None ∧
  ¬ ∃ err st', MainGo.walk fuel path (Dir None entries) st = Some (err, st').
Proof.
  rewrite MainGo_walk_Dir. split; [done|]. by intros (? & ? & ?).
Qed.

(** C5 (the code at the failing inputs).  [walk] of main.go does not
    return on an empty directory; [walkDir] of part_000 returns on the
    tree [nested] with an allowance of its depth, but enters the directory
    /r/a/b twice and sends /r/a/b/f four times. *)
Theorem walk_recursion_defects :
  (∀ fuel, MainGo.walk fuel "/r" (Dir None []) init = None) ∧
  Part000.walkDir (depth nested) background "/r" nested init =
    Some (None,
          mkWstate [Enter "/r";
                    Walking "/r/a"; Enter "/r/a";
                    Walking "/r/a/b"; Enter "/r/a/b";
                    Walking "/r/a/b/f"; Send smallFiles "/r/a/b/f";
                    Walking "/r/a/b/f"; Send smallFiles "/r/a/b/f";
                    Walking "/r/a/b"; Enter "/r/a/b";
                    Walking "/r/a/b/f"; Send smallFiles "/r/a/b/f";
                    Walking "/r/a/b/f"; Send smallFiles "/r/a/b/f"] 11 []).
Proof.
  split; [intros fuel; apply MainGo_walk_Dir|]. vm_compute. reflexivity.
Qed.

(** ** Further facts about the scanner and the walkers *)

(** [dropCR] removes one terminal carriage return and nothing else. *)
Lemma dropCR_carriage_return l :
  bufio.dropCR (l ++ [carriage_return]) = l.
Proof.
  unfold bufio.dropCR, len. rewrite length_app. simpl length.
  replace (0 <? Z.of_nat (length l + 1)) with true by (symmetry; apply Z.ltb_lt; lia).
  replace (Z.to_nat (Z.of_nat (length l + 1) - 1)) with (length l) by lia.
  rewrite lookup_app_r, Nat.sub_diag by lia. simpl.
  rewrite slice_0.
  replace (Z.to_nat (Z.of_nat (length l + 1) - 1)) with (length l) by lia.
  by rewrite take_app_length.
Qed.

Lemma dropCR_other l :
  last l ≠ Some carriage_return → bufio.dropCR l = l.
Proof.
  intros Hlast. unfold bufio.dropCR.
  destruct (0 <? len l) eqn:Hl; [|done]. simpl.
  rewrite bool_decide_eq_false_2; [done|].
  intros Hlook. apply Hlast. rewrite last_lookup. rewrite <- Hlook.
  f_equal. unfold len. lia.
Qed.

(** The scanner delivers at least the lines before the first one that
    does not fit. *)
Lemma deliver_length ls k :
  (k ≤ length ls)%nat → Forall fits (take k ls) → (k ≤ length (deliver ls).1)%nat.
Proof.
  revert k. induction ls as [|l ls IH]; intros [|k] Hk Hfit; simpl in *; try lia.
  apply Forall_cons in Hfit as [Hl Hfit].
  rewrite bool_decide_eq_true_2 by done.
  specialize (IH k ltac:(lia) Hfit).
  destruct (deliver ls) as [ts e]. simpl in *. lia.
Qed.

(** The cancellation of [replaceInLargeFile] in terms of the lines of the
    file: a context that fires at poll [n] stops the rewrite when the file
    has more than [n] lines and its first [n + 1] lines fit the buffer. *)
Lemma large_file_cancellation_lines ctx path search replace (fs : filesystem) input n :
  fs !! path = Some (Regular input) →
  fires_at ctx = Some n →
  (n < length (split_lines input))%nat →
  Forall fits (take (S n) (split_lines input)) →
  replaceInLargeFile ctx path search replace fs = Some (Some (ctx_Err ctx), fs).
Proof.
  intros Hpath Hn Hlt Hfit. rewrite (replaceInLargeFile_spec _ _ _ _ _ _ Hpath).
  rewrite Tokens_lines.
  pose proof (deliver_length (split_lines input) (S n) ltac:(lia) Hfit) as Hlen.
  pose proof (rewrite_tokens_fired ctx search replace (deliver (split_lines input)).1
                (deliver (split_lines input)).2 n Hn 0%nat [] ltac:(lia)) as H.
  destruct (rewrite_tokens _ _ _ _ _ _ _) as [e out]. simpl in H. by subst e.
Qed.

(** On a file without lines the context is never polled: the rewrite
    succeeds whatever the context. *)
Lemma large_file_empty ctx path search replace (fs : filesystem) :
  fs !! path = Some (Regular []) →
  replaceInLargeFile ctx path search replace fs = Some (None, fs).
Proof.
  intros Hpath. rewrite (replaceInLargeFile_spec _ _ _ _ _ _ Hpath).
  rewrite Tokens_lines. simpl. by rewrite insert_id.
Qed.

(** [replaceInLargeFile] always returns. *)
Lemma replaceInLargeFile_returns ctx path search replace (fs : filesystem) :
  is_Some (replaceInLargeFile ctx path search replace fs).
Proof.
  destruct (fs !! path) as [[input|]|] eqn:Hpath.
  - by rewrite (replaceInLargeFile_spec _ _ _ _ _ _ Hpath).
  - unfold replaceInLargeFile, os.Open, os.CreateTemp, os.read. rewrite Hpath.
    assert (os.TempName fs ≠ path)
      by (intros <-; pose proof (TempName_fresh fs); congruence).
    by rewrite lookup_insert_ne, Hpath.
  - unfold replaceInLargeFile, os.Open. by rewrite Hpath.
Qed.

(** On a root that is not a directory, [walkDir] of part_000 sends
    nothing: the root itself is skipped. *)
Lemma Part000_walkDir_file_root fuel ctx path size st :
  ∃ r,
    Part000.walkDir (S fuel) ctx path (File size) st =
    Some (r, mkWstate (trace st ++ [Enter path]) (S (polls st)) (errs st)).
Proof.
  simpl. unfold filepath.Walk, mbind, W_bind, emit, poll. simpl.
  unfold mbind, W_bind. simpl.
  destruct (ctx_Done ctx (polls st)); simpl.
  - destruct (_ || _); by eexists.
  - rewrite bool_decide_eq_true_2 by done. by eexists.
Qed.

(** ** Paths of a well-formed tree *)

Lemma split_at_first_unique {A} (x : A) l1 r1 l2 r2 :
  x ∉ l1 → x ∉ l2 → l1 ++ x :: r1 = l2 ++ x :: r2 → l1 = l2 ∧ r1 = r2.
Proof.
  revert l2. induction l1 as [|a l1 IH]; intros [|b l2] H1 H2 E; simpl in E.
  - by injection E.
  - injection E as <- _. exfalso. apply H2. left.
  - injection E as -> _. exfalso. apply H1. left.
  - injection E as <- E. apply not_elem_of_cons in H1 as [_ H1].
    apply not_elem_of_cons in H2 as [_ H2].
    destruct (IH l2 H1 H2 E) as [-> ->]. done.
Qed.

Lemma split_at_last_unique {A} (x : A) l1 r1 l2 r2 :
  x ∉ r1 → x ∉ r2 → l1 ++ x :: r1 = l2 ++ x :: r2 → l1 = l2 ∧ r1 = r2.
Proof.
  intros H1 H2 E. apply (f_equal reverse) in E.
  rewrite !reverse_app, !reverse_cons, <- !app_assoc in E. simpl in E.
  apply split_at_first_unique in E as [E1 E2].
  - split; [by apply (inj reverse)|by apply (inj reverse)].
  - by rewrite elem_of_reverse.
  - by rewrite elem_of_reverse.
Qed.

Lemma list_ascii_of_string_app (s1 s2 : string) :
  list_ascii_of_string (s1 +:+ s2) = list_ascii_of_string s1 ++ list_ascii_of_string s2.
Proof. induction s1 as [|c s1 IH]; simpl; [done|]. by rewrite IH. Qed.

Lemma list_ascii_of_string_inj (s1 s2 : string) :
  list_ascii_of_string s1 = list_ascii_of_string s2 → s1 = s2.
Proof.
  intros H. rewrite <- (string_of_list_ascii_of_string s1),
    <- (string_of_list_ascii_of_string s2). by rewrite H.
Qed.

Lemma Join_inj p1 n1 p2 n2 :
  "/"%char ∉ list_ascii_of_string n1 →
  "/"%char ∉ list_ascii_of_string n2 →
  filepath.Join p1 n1 = filepath.Join p2 n2 → p1 = p2 ∧ n1 = n2.
Proof.
  intros H1 H2 E. apply (f_equal list_ascii_of_string) in E.
  unfold filepath.Join in E. rewrite !list_ascii_of_string_app in E. simpl in E.
  apply split_at_last_unique in E as [E1 E2]; [|done..].
  split; by apply list_ascii_of_string_inj.
Qed.

Lemma NoDup_fst_functional {A C} (l : list (A * C)) x y1 y2 :
  NoDup l.*1 → (x, y1) ∈ l → (x, y2) ∈ l → y1 = y2.
Proof.
  induction l as [|[a b] l IH]; simpl; intros Hnd H1 H2.
  - by apply elem_of_nil in H1.
  - apply NoDup_cons in Hnd as [Hnot Hnd].
    apply elem_of_cons in H1 as [H1|H1]; apply elem_of_cons in H2 as [H2|H2].
    + congruence.
    + injection H1 as -> ->. exfalso. apply Hnot.
      apply list_elem_of_fmap. by exists (a, y2).
    + injection H2 as -> ->. exfalso. apply Hnot.
      apply list_elem_of_fmap. by exists (a, y1).
    + by apply IH.
Qed.

Lemma at_path_well_formed root info p n :
  well_formed info → at_path root info p n → well_formed n.
Proof.
  intros Hwf. induction 1 as [|p listing entries name c _ IH Hin]; [done|].
  inversion IH as [| |l es _ Hes]; subst. by apply (Hes name c).
Qed.

Lemma at_path_not_above root info p name n :
  at_path root info p n → filepath.Join p name ≠ root.
Proof.
  intros Hp Heq. pose proof (Join_length p name) as Hlen. rewrite Heq in Hlen.
  destruct (at_path_cases _ _ _ _ Hp) as [[-> _]|[? _]]; lia.
Qed.

Lemma at_path_root root info p n :
  at_path root info p n → p = root → n = info.
Proof.
  destruct 1 as [|p listing entries name c Hp Hin]; [done|].
  intros Heq. exfalso. by eapply at_path_not_above.
Qed.

Lemma at_path_functional root info p n1 n2 :
  well_formed info →
  at_path root info p n1 → at_path root info p n2 → n1 = n2.
Proof.
  intros Hwf H1. revert n2.
  induction H1 as [|p listing entries name c Hp IH Hin]; intros n2 H2.
  - symmetry. by eapply at_path_root.
  - remember (filepath.Join p name) as q eqn:Hq.
    destruct H2 as [|p' l' es' name' c' Hp' Hin'].
    + exfalso. symmetry in Hq. by eapply at_path_not_above.
    + pose proof (at_path_well_formed _ _ _ _ Hwf Hp) as Hwf1.
      pose proof (at_path_well_formed _ _ _ _ Hwf Hp') as Hwf2.
      inversion Hwf1 as [| |? ? Hnd Hes]; subst.
      inversion Hwf2 as [| |? ? Hnd' Hes']; subst.
      apply Join_inj in Hq as [-> ->];
        [|by apply (Hes' name' c')|by apply (Hes name c)].
      specialize (IH _ Hp'). injection IH as -> ->.
      by eapply NoDup_fst_functional.
Qed.

(** X21.  On a well-formed tree, [walkDir] of part_000 sends no path on
    both channels. *)
Lemma Part000_never_both_queues fuel ctx path info st :
  well_formed info → (0 < fuel)%nat → (depth info ≤ fuel)%nat →
  ∃ r t st',
    Part000.walkDir fuel ctx path info st = Some (r, st') ∧
    trace st' = trace st ++ t ∧
    ∀ p, ¬ (Send largeFiles p ∈ t ∧ Send smallFiles p ∈ t).
Proof.
  intros Hwf Hpos Hdepth.
  destruct (Part000_sends_classified fuel ctx path info st Hpos Hdepth)
    as (r & t & st' & E & Ht & Hsend).
  exists r, t, st'. split; [done|]. split; [done|].
  intros p [Hl Hs].
  destruct (Hsend _ _ Hl) as (_ & size1 & Hp1 & Hq1).
  destruct (Hsend _ _ Hs) as (_ & size2 & Hp2 & Hq2).
  pose proof (at_path_functional _ _ _ _ _ Hwf Hp1 Hp2) as [= ->].
  congruence.
Qed.

(** * Further properties of the code *)

(** ** [replaceInFile] on any path *)


(** X2.  [replaceInFile] neither creates nor removes a file and leaves
    every path other than its own as it was. *)
Theorem replaceInFile_frame (fs : filesystem) path search replace :
  dom (replaceInFile path search replace fs).2 = dom fs ∧
  ∀ q, q ≠ path → (replaceInFile path search replace fs).2 !! q = fs !! q.
Proof.
  unfold replaceInFile, os.OpenFile_RDWR, os.read, os.WriteFile.
  destruct (fs !! path) as [[content|]|] eqn:Hpath; simpl; try done.
  split.
  - rewrite dom_insert_L. assert (path ∈ dom fs) by (apply elem_of_dom; eauto).
    apply set_eq. intros q. rewrite elem_of_union, elem_of_singleton.
    split; [intros [->|?]; done|by right].
  - intros q Hq. by rewrite lookup_insert_ne.
Qed.

Lemma ReplaceAll_no_occurrence s old new :
  old ≠ [] → ¬ occurs old s → strings.ReplaceAll s old new = s.
Proof.
  intros Hold Hno. rewrite ReplaceAll_scan by done.
  apply scan_replace_first_None. by apply not_occurs_first.
Qed.

(** X3.  When the non-empty [search] does not occur in the content,
    [replaceInFile] succeeds and the file system is exactly as before. *)
Theorem replaceInFile_no_occurrence (fs : filesystem) path content search replace :
  fs !! path = Some (Regular content) →
  search ≠ [] →
  ¬ occurs search content →
  replaceInFile path search replace fs = (None, fs).
Proof.
  intros Hpath Hs Hno. rewrite (replaceInFile_spec _ _ _ _ _ Hpath).
  rewrite ReplaceAll_no_occurrence by done. by rewrite insert_id.
Qed.

Lemma replaceInFile_no_occurrence_witness :
  replaceInFile a_txt (B "gopher") (B "world") (one_file (B "hello world")) =
  (None, one_file (B "hello world")).
Proof.
  apply (replaceInFile_no_occurrence (one_file (B "hello world")) a_txt (B "hello world")).
  - reflexivity.
  - discriminate.
  - apply not_occurs_first. vm_compute. reflexivity.
Defined.

(** ** The replacement of one byte *)

Lemma HasPrefix_byte c s a :
  strings.HasPrefix (c :: s) [a] = bool_decide (c = a).
Proof.
  case_bool_decide as H.
  - subst. apply HasPrefix_true. by exists s.
  - apply not_true_is_false. intros [t Ht]%HasPrefix_true. by injection Ht.
Qed.

Lemma scan_replace_byte a b s :
  scan_replace [a] [b] 0 s = subst_byte a b s.
Proof.
  induction s as [|c s IH]; [done|].
  cbn [scan_replace subst_byte map]. rewrite HasPrefix_byte.
  case_bool_decide; simpl; by rewrite IH.
Qed.

Lemma ReplaceAll_byte a b s :
  strings.ReplaceAll s [a] [b] = subst_byte a b s.
Proof. rewrite ReplaceAll_scan by done. apply scan_replace_byte. Qed.

Lemma subst_byte_undo a b s :
  b ∉ s → subst_byte b a (subst_byte a b s) = s.
Proof.
  unfold subst_byte. induction s as [|c s IH]; intros Hb; [done|].
  apply not_elem_of_cons in Hb as [Hc Hb]. cbn [map]. rewrite IH by done.
  f_equal. destruct (decide (c = a)) as [->|Hca].
  - by rewrite (bool_decide_eq_true_2 (a = a)), (bool_decide_eq_true_2 (b = b)).
  - rewrite (bool_decide_eq_false_2 (c = a)) by done.
    by rewrite bool_decide_eq_false_2 by (intros ->; done).
Qed.

(** X4.  With a search and a replacement of one byte each,
    [replaceInFile] substitutes byte for byte: the content keeps its
    length. *)
Theorem replaceInFile_byte (fs : filesystem) path content a b :
  fs !! path = Some (Regular content) →
  replaceInFile path [a] [b] fs = (None, <[path := Regular (subst_byte a b content)]> fs) ∧
  length (subst_byte a b content) = length content.
Proof.
  intros Hpath. rewrite (replaceInFile_spec _ _ _ _ _ Hpath), ReplaceAll_byte.
  split; [done|]. apply length_map.
Qed.

Lemma replaceInFile_byte_witness :
  replaceInFile a_txt (B "o") (B "0") (one_file (B "foo boo")) =
  (None, one_file (B "f00 b00")).
Proof.
  destruct (replaceInFile_byte (one_file (B "foo boo")) a_txt (B "foo boo")
              "o"%char "0"%char) as [H _].
  - reflexivity.
  - change (B "o") with ["o"%char]. change (B "0") with ["0"%char].
    rewrite H. vm_compute. reflexivity.
Defined.

(** X5.  Replacing the byte [a] by a byte [b] that the content does not
    hold, and then [b] by [a], gives the file system back as it was. *)
Theorem replaceInFile_byte_undo (fs : filesystem) path content a b :
  fs !! path = Some (Regular content) →
  b ∉ content →
  replaceInFile path [b] [a] (replaceInFile path [a] [b] fs).2 = (None, fs).
Proof.
  intros Hpath Hb. rewrite (replaceInFile_spec _ _ _ [a] [b] Hpath), ReplaceAll_byte.
  cbn [snd].
  rewrite (replaceInFile_spec _ _ (subst_byte a b content)) by apply lookup_insert_eq.
  rewrite ReplaceAll_byte, subst_byte_undo by done.
  by rewrite insert_insert_eq, insert_id.
Qed.

Lemma replaceInFile_byte_undo_witness :
  replaceInFile a_txt (B "0") (B "o")
    (replaceInFile a_txt (B "o") (B "0") (one_file (B "foo boo"))).2 =
  (None, one_file (B "foo boo")).
Proof.
  apply (replaceInFile_byte_undo (one_file (B "foo boo")) a_txt (B "foo boo")
           "o"%char "0"%char).
  - reflexivity.
  - vm_compute. intros H. repeat (apply elem_of_cons in H as [H|H]; [discriminate H|]).
    by apply elem_of_nil in H.
Defined.

(** ** [replaceInLargeFile] on any path *)

Lemma replaceInLargeFile_missing ctx path search replace (fs : filesystem) :
  fs !! path = None →
  replaceInLargeFile ctx path search replace fs = Some (Some (fs_ErrNotExist path), fs).
Proof. intros H. unfold replaceInLargeFile, os.Open. by rewrite H. Qed.

Lemma replaceInLargeFile_directory ctx path search replace (fs : filesystem) :
  fs !! path = Some Directory →
  replaceInLargeFile ctx path search replace fs = Some (Some (syscall_EISDIR path), fs).
Proof.
  intros Hpath. unfold replaceInLargeFile, os.Open, os.CreateTemp, os.read.
  rewrite Hpath. pose proof (TempName_fresh fs) as Htmp.
  assert (os.TempName fs ≠ path) by (intros <-; congruence).
  rewrite lookup_insert_ne, Hpath by done. cbn [fst snd]. unfold os.Remove.
  rewrite lookup_insert_eq. cbn [snd]. by rewrite delete_insert_eq, delete_id.
Qed.

(** X6.  [replaceInLargeFile] always returns, and is all or nothing: with
    an error the file system is exactly as before; without one the path
    held a regular file; in both cases no file was created or removed (no
    temporary file is left) and no other path was touched. *)
Theorem replaceInLargeFile_all_or_nothing ctx path search replace (fs : filesystem) :
  ∃ err fs',
    replaceInLargeFile ctx path search replace fs = Some (err, fs') ∧
    (err ≠ None → fs' = fs) ∧
    (err = None → ∃ content, fs !! path = Some (Regular content)) ∧
    dom fs' = dom fs ∧
    (∀ q, q ≠ path → fs' !! q = fs !! q).
Proof.
  destruct (fs !! path) as [[input|]|] eqn:Hpath.
  - rewrite (replaceInLargeFile_spec _ _ _ _ _ _ Hpath).
    destruct (rewrite_tokens _ _ _ _ _ _ _) as [[err|] out].
    + eexists _, _. split; [done|]. repeat split; try done.
    + eexists _, _. split; [done|]. split; [done|]. split; [eauto|]. split.
      * rewrite dom_insert_L. assert (path ∈ dom fs) by (apply elem_of_dom; eauto).
        apply set_eq. intros q. rewrite elem_of_union, elem_of_singleton.
        split; [intros [->|?]; done|by right].
      * intros q Hq. by rewrite lookup_insert_ne.
  - rewrite replaceInLargeFile_directory by done.
    eexists _, _. split; [done|]. repeat split; done.
  - rewrite replaceInLargeFile_missing by done.
    eexists _, _. split; [done|]. repeat split; done.
Qed.

(** ** Lines *)

Lemma split_lines_join ls :
  Forall (λ l, newline ∉ l) ls → split_lines (join_lines ls) = ls.
Proof.
  induction 1 as [|l ls Hl _ IH]; [done|].
  unfold join_lines. cbn [map concat]. rewrite <- app_assoc. simpl app.
  rewrite split_lines_line by done. f_equal. exact IH.
Qed.

Lemma split_lines_no_newline s : Forall (λ l, newline ∉ l) (split_lines s).
Proof.
  induction s as [|c s IH]; [constructor|]. simpl.
  case_bool_decide as Hc.
  - constructor; [apply not_elem_of_nil|done].
  - destruct (split_lines s) as [|l ls].
    + constructor; [|constructor].
      intros [E|E]%elem_of_cons; [by subst c|by apply elem_of_nil in E].
    + apply Forall_cons in IH as [Hl Hls]. constructor; [|done].
      intros [E|E]%elem_of_cons; [by subst c|done].
Qed.

Lemma split_lines_trailing s :
  s ≠ [] → last s ≠ Some newline → split_lines (s ++ [newline]) = split_lines s.
Proof.
  induction s as [|c s IH]; intros Hne Hlast; [done|].
  destruct s as [|c' s].
  - simpl in *. by rewrite bool_decide_eq_false_2 by congruence.
  - change ((c :: c' :: s) ++ [newline]) with (c :: ((c' :: s) ++ [newline])).
    cbn [split_lines]. rewrite IH; [done|done|]. by rewrite last_cons_cons in Hlast.
Qed.

(** X9.  A missing newline at the end of the file makes no difference
    to the large path: when the rewrite succeeds on a non-empty content
    that does not end with a newline, it succeeds with the same result on
    that content followed by a newline. *)
Theorem large_file_trailing_newline ctx path search replace (fs fs' : filesystem) input :
  fs !! path = Some (Regular input) →
  input ≠ [] →
  last input ≠ Some newline →
  replaceInLargeFile ctx path search replace fs = Some (None, fs') →
  replaceInLargeFile ctx path search replace (<[path := Regular (input ++ [newline])]> fs) =
    Some (None, fs').
Proof.
  intros Hpath Hne Hlast Hrun.
  apply (replaceInLargeFile_success _ _ _ _ _ _ _ Hpath) in Hrun as (Hfit & Halive & ->).
  apply (replaceInLargeFile_success _ _ _ _ _ _ (input ++ [newline]));
    [apply lookup_insert_eq|].
  unfold rewritten. rewrite split_lines_trailing by done.
  split; [done|]. split; [done|]. by rewrite insert_insert_eq.
Qed.

Lemma large_file_trailing_newline_witness :
  replaceInLargeFile background a_txt (B "world") (B "gopher")
    (<[a_txt := Regular (B "hello world" ++ [newline])]> (one_file (B "hello world"))) =
  Some (None, one_file (B "hello gopher" ++ [newline])).
Proof.
  apply (large_file_trailing_newline background a_txt (B "world") (B "gopher")
           (one_file (B "hello world")) _ (B "hello world")).
  - reflexivity.
  - discriminate.
  - vm_compute. discriminate.
  - vm_compute. reflexivity.
Defined.

(** ** A search that holds a newline *)

Lemma occurs_elem_of old s x : occurs old s → x ∈ old → x ∈ s.
Proof.
  intros [i Hi] Hx. unfold occurs_at in Hi. apply HasPrefix_true in Hi as [t Ht].
  rewrite <- (take_drop i s), Ht. set_solver.
Qed.

Lemma dropCR_elem_of x l : x ∈ bufio.dropCR l → x ∈ l.
Proof.
  unfold bufio.dropCR. destruct (_ && _); [|done].
  rewrite slice_0. apply elem_of_take_inv.
Qed.

Lemma map_ext_elem_of {A C} (f g : A → C) l :
  (∀ x, x ∈ l → f x = g x) → map f l = map g l.
Proof.
  induction l as [|x l IH]; intros H; [done|]. simpl.
  rewrite (H x) by left. rewrite IH; [done|]. intros y Hy. apply H. by right.
Qed.

(** X7.  The large path never matches across a line end: when [search]
    holds a newline, a successful [replaceInLargeFile] replaces nothing
    and only rewrites the line ends. *)
Theorem large_file_search_across_lines ctx path search replace (fs fs' : filesystem) input :
  fs !! path = Some (Regular input) →
  newline ∈ search →
  replaceInLargeFile ctx path search replace fs = Some (None, fs') →
  fs' = <[path := Regular (join_lines (map bufio.dropCR (split_lines input)))]> fs.
Proof.
  intros Hpath Hnl Hrun.
  apply (replaceInLargeFile_success _ _ _ _ _ _ _ Hpath) in Hrun as (_ & _ & ->).
  unfold rewritten. do 3 f_equal. apply map_ext_elem_of. intros l Hin.
  pose proof (split_lines_no_newline input) as Hall.
  rewrite Forall_forall in Hall. specialize (Hall l Hin). rename Hall into Hl.
  apply ReplaceAll_no_occurrence.
  - intros ->. by apply elem_of_nil in Hnl.
  - intros Hocc. apply Hl. apply dropCR_elem_of. by eapply occurs_elem_of.
Qed.

Lemma large_file_search_across_lines_witness :
  one_file (B "a" ++ newline :: B "b" ++ [newline]) =
  <[a_txt := Regular (join_lines (map bufio.dropCR
                        (split_lines (B "a" ++ newline :: B "b"))))]>
    (one_file (B "a" ++ newline :: B "b")).
Proof.
  apply (large_file_search_across_lines background a_txt
           (B "a" ++ newline :: B "b") (B "x")
           (one_file (B "a" ++ newline :: B "b")) _ (B "a" ++ newline :: B "b")).
  - reflexivity.
  - vm_compute. apply list_elem_of_further, list_elem_of_here.
  - vm_compute. reflexivity.
Defined.

(** ** The two rewriters on a text file *)

Lemma HasPrefix_before_newline l rest old :
  newline ∉ old →
  strings.HasPrefix (l ++ newline :: rest) old = strings.HasPrefix l old.
Proof.
  intros Hold. destruct (strings.HasPrefix l old) eqn:E.
  - apply HasPrefix_true in E as [t ->]. apply HasPrefix_true.
    exists (t ++ newline :: rest). by rewrite app_assoc.
  - apply not_true_is_false. intros [t Ht]%HasPrefix_true.
    destruct (decide (length old ≤ length l)%nat) as [Hle|Hgt].
    + apply (f_equal (take (length old))) in Ht.
      rewrite take_app_le, take_app_length in Ht by done.
      apply not_true_iff_false in E. apply E, HasPrefix_true.
      exists (drop (length old) l). rewrite <- Ht at 1. by rewrite take_drop.
    + apply Hold. apply (f_equal (λ s, s !! length l)) in Ht.
      rewrite lookup_app_r, Nat.sub_diag in Ht by done. simpl in Ht.
      rewrite lookup_app_l in Ht by lia. symmetry in Ht.
      by apply list_elem_of_lookup_2 in Ht.
Qed.

Lemma scan_replace_line old new l rest :
  old ≠ [] → newline ∉ old →
  ∀ k, (k ≤ length l)%nat →
    scan_replace old new k (l ++ newline :: rest) =
    scan_replace old new k l ++ newline :: scan_replace old new 0 rest.
Proof.
  intros Hne Hold. induction l as [|c l IH]; intros k Hk.
  - assert (k = 0%nat) as -> by (simpl in Hk; lia).
    cbn [app scan_replace].
    replace (strings.HasPrefix (newline :: rest) old) with false; [done|].
    symmetry. apply not_true_is_false. intros [t Ht]%HasPrefix_true.
    destruct old as [|o old]; [done|]. injection Ht as <- _. apply Hold. left.
  - change ((c :: l) ++ newline :: rest) with (c :: (l ++ newline :: rest)).
    destruct k as [|k]; cbn [scan_replace].
    + change (c :: (l ++ newline :: rest)) with ((c :: l) ++ newline :: rest).
      rewrite HasPrefix_before_newline by done.
      destruct (strings.HasPrefix (c :: l) old) eqn:E.
      * apply HasPrefix_true in E as [t Ht]. apply (f_equal length) in Ht.
        rewrite length_app in Ht. simpl in Ht.
        rewrite IH by lia. by rewrite <- app_assoc.
      * by rewrite IH by lia.
    + apply IH. simpl in Hk. lia.
Qed.

Lemma ReplaceAll_join_lines ls old new :
  old ≠ [] → newline ∉ old →
  strings.ReplaceAll (join_lines ls) old new =
  join_lines (map (λ l, strings.ReplaceAll l old new) ls).
Proof.
  intros Hne Hold. rewrite ReplaceAll_scan by done.
  induction ls as [|l ls IH]; [done|].
  unfold join_lines in *. cbn [map concat]. rewrite <- !app_assoc. simpl app.
  rewrite scan_replace_line by (done || lia).
  by rewrite IH, ReplaceAll_scan.
Qed.

(** X8.  On a text file whose lines all end with a newline, fit the
    scanner and do not end with a carriage return, and for a non-empty
    [search] without newline, the large path under a context that does not
    fire gives exactly what the small path gives. *)
Theorem rewriters_agree ctx path search replace (fs : filesystem) ls :
  fs !! path = Some (Regular (join_lines ls)) →
  Forall plain_line ls →
  search ≠ [] →
  newline ∉ search →
  fires_at ctx = None →
  replaceInLargeFile ctx path search replace fs =
  Some (replaceInFile path search replace fs).
Proof.
  intros Hpath Hls Hne Hnl Hctx.
  rewrite (replaceInFile_spec _ _ _ _ _ Hpath).
  assert (split_lines (join_lines ls) = ls) as Hsplit.
  { apply split_lines_join. eapply Forall_impl; [exact Hls|]. by intros l [? _]. }
  apply (replaceInLargeFile_success _ _ _ _ _ _ _ Hpath). rewrite Hsplit.
  split; [|split].
  - eapply Forall_impl; [exact Hls|]. by intros l (_ & ? & _).
  - intros j _. unfold ctx_Done. by rewrite Hctx.
  - unfold rewritten. rewrite Hsplit, ReplaceAll_join_lines by done.
    do 3 f_equal. apply map_ext_elem_of. intros l Hin.
    rewrite Forall_forall in Hls. destruct (Hls l Hin) as (_ & _ & Hcr).
    by rewrite dropCR_other.
Qed.

Lemma rewriters_agree_witness :
  replaceInLargeFile background a_txt (B "o") (B "0")
    (one_file (join_lines [B "foo"; B ""; B "boo"])) =
  Some (replaceInFile a_txt (B "o") (B "0") (one_file (join_lines [B "foo"; B ""; B "boo"]))).
Proof.
  apply (rewriters_agree background a_txt (B "o") (B "0") _ [B "foo"; B ""; B "boo"]).
  - reflexivity.
  - repeat constructor; vm_compute; try discriminate;
      intros H; repeat (apply elem_of_cons in H as [H|H]; [discriminate H|]);
      by apply elem_of_nil in H.
  - discriminate.
  - vm_compute. intros H. repeat (apply elem_of_cons in H as [H|H]; [discriminate H|]).
    by apply elem_of_nil in H.
  - reflexivity.
Defined.

(** ** The bytes of a replacement *)

Lemma scan_replace_elem_of old new x s :
  ∀ k, x ∈ scan_replace old new k s → x ∈ s ∨ x ∈ new.
Proof.
  induction s as [|c s IH]; intros k; simpl; [by left|].
  destruct k as [|k].
  - destruct (strings.HasPrefix (c :: s) old).
    + intros [H|H]%elem_of_app; [by right|].
      destruct (IH _ H) as [?|?]; [left; by right|by right].
    + intros [->|H]%elem_of_cons; [left; left|].
      destruct (IH _ H) as [?|?]; [left; by right|by right].
  - intros H. destruct (IH _ H) as [?|?]; [left; by right|by right].
Qed.

Lemma elem_of_concat {A} (x : A) (ls : list (list A)) :
  x ∈ concat ls ↔ ∃ l, x ∈ l ∧ l ∈ ls.
Proof.
  induction ls as [|l ls IH]; simpl.
  - split; [by intros ?%elem_of_nil|by intros (? & _ & ?%elem_of_nil)].
  - rewrite elem_of_app, IH. split.
    + intros [H|(l' & H1 & H2)]; [exists l; split; [done|left]|].
      exists l'. split; [done|by right].
    + intros (l' & H1 & [->|H2]%elem_of_cons); [by left|right; eauto].
Qed.

Lemma ReplaceAll_elem_of s old new x :
  x ∈ strings.ReplaceAll s old new → x ∈ s ∨ x ∈ new.
Proof.
  destruct (decide (old = [])) as [->|Hold].
  - destruct (decide (new = [])) as [->|Hnew]; [by left|].
    rewrite ReplaceAll_empty_old by done. unfold insert_at_runes.
    intros [H|H]%elem_of_app; [by right|].
    apply elem_of_concat in H as (r & Hx & Hr).
    apply list_elem_of_fmap in Hr as (r' & -> & Hr').
    apply elem_of_app in Hx as [Hx|Hx]; [left|by right].
    rewrite <- (runes_loop_concat (length s) s) by done.
    apply elem_of_concat. exists r'. done.
  - rewrite ReplaceAll_scan by done. apply scan_replace_elem_of.
Qed.

(** X10.  When [replace] holds no newline, a successful
    [replaceInLargeFile] keeps the number of lines, and what it writes is
    empty or ends with a newline. *)
Theorem large_file_line_count ctx path search replace (fs fs' : filesystem) input :
  fs !! path = Some (Regular input) →
  newline ∉ replace →
  replaceInLargeFile ctx path search replace fs = Some (None, fs') →
  ∃ output,
    fs' !! path = Some (Regular output) ∧
    length (split_lines output) = length (split_lines input) ∧
    (output = [] ∨ last output = Some newline).
Proof.
  intros Hpath Hr Hrun.
  apply (replaceInLargeFile_success _ _ _ _ _ _ _ Hpath) in Hrun as (_ & _ & ->).
  exists (rewritten input search replace). split; [apply lookup_insert_eq|].
  unfold rewritten. split.
  - rewrite split_lines_join; [by rewrite length_map|].
    apply Forall_map, Forall_forall. intros l Hl. simpl.
    intros [H|H]%ReplaceAll_elem_of; [|done].
    pose proof (split_lines_no_newline input) as Hall.
    rewrite Forall_forall in Hall. apply (Hall l Hl). by apply dropCR_elem_of.
  - destruct (split_lines input) as [|l ls _] using rev_ind; [by left|right].
    rewrite map_app. unfold join_lines. rewrite map_app, concat_app. simpl.
    by rewrite app_nil_r, app_assoc, last_snoc.
Qed.

Lemma large_file_line_count_witness :
  ∃ output,
    one_file (B "hello gopher" ++ [newline]) !! a_txt = Some (Regular output) ∧
    length (split_lines output) = length (split_lines (B "hello world")) ∧
    (output = [] ∨ last output = Some newline).
Proof.
  apply (large_file_line_count background a_txt (B "world") (B "gopher")
           (one_file (B "hello world")) _ (B "hello world")).
  - reflexivity.
  - vm_compute. intros H. repeat (apply elem_of_cons in H as [H|H]; [discriminate H|]).
    by apply elem_of_nil in H.
  - vm_compute. reflexivity.
Defined.

(** ** [buildLargeFile] *)

Lemma buildLargeFile_loop_spec char size fuel :
  ∀ i sb,
    size - i <= Z.of_nat fuel →
    buildLargeFile_loop fuel char size i sb =
    sb ++ concat (replicate (Z.to_nat ((size - i + 49) / 50))
                            (Repeat char skip ++ [newline])).
Proof.
  induction fuel as [|fuel IH]; intros i sb Hfuel.
  - simpl. replace (i <? size) with false by (symmetry; apply Z.ltb_ge; lia).
    replace (Z.to_nat ((size - i + 49) / 50)) with 0%nat.
    + by rewrite app_nil_r.
    + assert ((size - i + 49) / 50 < 1); [|lia].
      apply Z.div_lt_upper_bound; lia.
  - cbn [buildLargeFile_loop]. destruct (i <? size) eqn:Hi.
    + apply Z.ltb_lt in Hi. rewrite IH by (unfold skip; lia).
      replace (Z.to_nat ((size - i + 49) / 50))
        with (S (Z.to_nat ((size - (i + skip) + 49) / 50))).
      * cbn [replicate concat]. by rewrite <- !app_assoc.
      * unfold skip.
        replace (size - i + 49) with ((size - (i + 50) + 49) + 1 * 50) by lia.
        rewrite Z.div_add by lia.
        assert (0 <= (size - (i + 50) + 49) / 50); [|lia].
        apply Z.div_pos; lia.
    + apply Z.ltb_ge in Hi.
      replace (Z.to_nat ((size - i + 49) / 50)) with 0%nat.
      * by rewrite app_nil_r.
      * assert ((size - i + 49) / 50 < 1); [|lia].
        apply Z.div_lt_upper_bound; lia.
Qed.

Lemma length_concat_replicate {A} n (l : list A) :
  length (concat (replicate n l)) = (n * length l)%nat.
Proof. induction n as [|n IH]; simpl; [done|]. rewrite length_app, IH. lia. Qed.

(** X11.  [buildLargeFile(char, size)] is [size / 50] rounded up lines
    of fifty copies of [char], each followed by a newline: its length is
    that number of lines times [50 * len(char) + 1], not [size], and it is
    empty for a [size] that is not positive. *)
Theorem buildLargeFile_lines char size :
  size <= max_int - skip →
  buildLargeFile char size =
    concat (replicate (Z.to_nat ((size + 49) / 50)) (Repeat char skip ++ [newline])) ∧
  len (buildLargeFile char size) =
    Z.max 0 ((size + 49) / 50) * (skip * len char + 1) ∧
  (size <= 0 → buildLargeFile char size = []).
Proof.
  intros _. unfold buildLargeFile.
  rewrite buildLargeFile_loop_spec by lia. rewrite Z.sub_0_r. simpl app.
  split; [done|]. split.
  - unfold len. rewrite length_concat_replicate, length_app.
    unfold Repeat. rewrite length_concat_replicate. simpl length. unfold skip. lia.
  - intros Hs. replace (Z.to_nat ((size + 49) / 50)) with 0%nat; [done|].
    assert ((size + 49) / 50 < 1); [|lia]. apply Z.div_lt_upper_bound; lia.
Qed.

Lemma buildLargeFile_lines_witness :
  len (buildLargeFile (B "a") (1024 * 1024)) = 20972 * 51.
Proof.
  destruct (buildLargeFile_lines (B "a") (1024 * 1024)) as (_ & H & _).
  - vm_compute. discriminate.
  - rewrite H. reflexivity.
Defined.

Lemma Repeat_byte a n : Repeat [a] n = replicate (Z.to_nat n) a.
Proof.
  unfold Repeat. induction (Z.to_nat n) as [|k IH]; simpl; [done|]. by rewrite IH.
Qed.

Lemma buildLargeFile_byte a size :
  buildLargeFile [a] size =
  join_lines (replicate (Z.to_nat ((size + 49) / 50)) (replicate (Z.to_nat skip) a)).
Proof.
  unfold buildLargeFile. rewrite buildLargeFile_loop_spec by lia.
  rewrite Z.sub_0_r, Repeat_byte. simpl app. unfold join_lines.
  induction (Z.to_nat ((size + 49) / 50)) as [|k IH]; simpl; [done|]. by rewrite IH.
Qed.

Lemma subst_byte_replicate a b n : subst_byte a b (replicate n a) = replicate n b.
Proof.
  unfold subst_byte. induction n as [|n IH]; simpl; [done|].
  by rewrite bool_decide_eq_true_2, IH.
Qed.

(** X12.  The "large file" case of the test for every size: on
    [buildLargeFile(a, size)], replacing the byte [a] (neither newline nor
    carriage return) by the byte [b] with [replaceInLargeFile] under a
    context that does not fire gives [buildLargeFile(b, size)]. *)
Theorem buildLargeFile_rewrite ctx path a b size (fs : filesystem) :
  size <= max_int - skip →
  a ≠ newline →
  a ≠ carriage_return →
  fires_at ctx = None →
  fs !! path = Some (Regular (buildLargeFile [a] size)) →
  replaceInLargeFile ctx path [a] [b] fs =
  Some (None, <[path := Regular (buildLargeFile [b] size)]> fs).
Proof.
  intros _ Hnl Hcr Hctx Hpath.
  apply (replaceInLargeFile_success _ _ _ _ _ _ _ Hpath).
  set (n := Z.to_nat ((size + 49) / 50)).
  set (l := replicate (Z.to_nat skip) a).
  assert (newline ∉ l) as Hl by (by intros [? _]%elem_of_replicate).
  assert (split_lines (buildLargeFile [a] size) = replicate n l) as Hsplit.
  { rewrite buildLargeFile_byte. apply split_lines_join.
    apply Forall_forall. by intros ? [-> _]%elem_of_replicate. }
  rewrite Hsplit. split; [|split].
  - apply Forall_forall. intros ? [-> _]%elem_of_replicate.
    unfold fits, l, len. rewrite length_replicate. done.
  - intros j _. unfold ctx_Done. by rewrite Hctx.
  - unfold rewritten. rewrite Hsplit, buildLargeFile_byte. do 3 f_equal.
    change (Z.to_nat ((size + 49) / 50)) with n.
    clear Hsplit. induction n as [|n IH]; [done|].
    cbn [replicate map]. rewrite <- IH. f_equal.
    rewrite dropCR_other.
    + rewrite ReplaceAll_byte. symmetry. apply subst_byte_replicate.
    + unfold l. change (Z.to_nat skip) with (S 49). rewrite replicate_S_end, last_snoc.
      congruence.
Qed.

Lemma buildLargeFile_rewrite_witness :
  replaceInLargeFile background a_txt (B "a") (B "b")
    (one_file (buildLargeFile (B "a") (1024 * 1024))) =
  Some (None, one_file (buildLargeFile (B "b") (1024 * 1024))).
Proof.
  change (B "a") with ["a"%char]. change (B "b") with ["b"%char].
  rewrite (buildLargeFile_rewrite background a_txt "a"%char "b"%char (1024 * 1024)
             (one_file (buildLargeFile ["a"%char] (1024 * 1024)))).
  - unfold one_file. by rewrite insert_singleton_eq.
  - vm_compute. discriminate.
  - discriminate.
  - discriminate.
  - reflexivity.
  - apply lookup_singleton_eq.
Defined.

(** ** The walker of part_000 under cancellation *)

(** X13.  When the context is done before [walk] of part_000 starts, the
    walk returns the error of the context after one poll, sends nothing
    and closes both channels. *)
Theorem Part000_walk_cancelled fuel ctx path info st n :
  fires_at ctx = Some n →
  (n ≤ polls st)%nat →
  context_error (cause ctx) →
  Part000.walk (S fuel) ctx path info st =
  Some (Some (ctx_Err ctx),
        mkWstate (trace st ++ [Enter path; Close largeFiles; Close smallFiles])
                 (S (polls st)) (errs st)).
Proof.
  intros Hn Hle Hcause.
  assert (ctx_Done ctx (polls st) = true) as Hdone.
  { unfold ctx_Done. rewrite Hn. by apply bool_decide_eq_true_2. }
  assert (bool_decide (Some (ctx_Err ctx) = Some filepath_SkipDir)
          || bool_decide (Some (ctx_Err ctx) = Some filepath_SkipAll) = false) as Hskip.
  { unfold ctx_Err. destruct Hcause as [-> | ->]; done. }
  unfold Part000.walk. cbn [Part000.walkDir].
  unfold filepath.Walk, mbind, W_bind, call, emit, poll.
  destruct info as [size|listing entries|e]; cbn [filepath.walk trace polls errs];
    unfold mbind, W_bind; cbn [trace polls errs]; rewrite Hdone;
    unfold mret, W_ret.
  - rewrite Hskip. cbn. by rewrite <- !app_assoc.
  - rewrite orb_true_r. unfold mret, W_ret. rewrite Hskip. cbn.
    by rewrite <- !app_assoc.
  - rewrite Hskip. cbn. by rewrite <- !app_assoc.
Qed.

Lemma Part000_walk_cancelled_witness :
  Part000.walk 1 expired "/r" nested init =
  Some (Some context_DeadlineExceeded,
        mkWstate [Enter "/r"; Close largeFiles; Close smallFiles] 1 []).
Proof.
  apply (Part000_walk_cancelled 0 expired "/r" nested init 0).
  - reflexivity.
  - simpl. lia.
  - right. reflexivity.
Defined.

Lemma sends_app t1 t2 : sends (t1 ++ t2) = (sends t1 + sends t2)%nat.
Proof. unfold sends. by rewrite filter_app, length_app. Qed.

Lemma sends_while_alive_trans n st1 st2 st3 :
  sends_while_alive n st1 st2 → sends_while_alive n st2 st3 →
  sends_while_alive n st1 st3.
Proof.
  intros (t1 & E1 & H1) (t2 & E2 & H2). exists (t1 ++ t2).
  rewrite E2, E1, app_assoc, sends_app. split; [done|lia].
Qed.

Lemma walkDir_sends_while_alive fuel :
  ∀ ctx path info st n,
    fires_at ctx = Some n →
    (0 < fuel)%nat → (depth info ≤ fuel)%nat →
    ∃ r st', Part000.walkDir fuel ctx path info st = Some (r, st') ∧
             sends_while_alive n st st'.
Proof.
  induction fuel as [|fuel IH]; intros ctx path info st n Hn Hpos Hdepth; [lia|].
  simpl Part000.walkDir. unfold mbind at 1, W_bind at 1, emit.
  set (st0 := mkWstate (trace st ++ [Enter path]) (polls st) (errs st)).
  assert (sends_while_alive n st st0) as H0.
  { exists [Enter path]. split; [done|]. change (sends [Enter path]) with 0%nat.
    unfold st0. cbn [polls]. lia. }
  cut (∃ r st', filepath.Walk path info
         (λ path0 info0 err,
            fired ← poll ctx;
            if (fired : bool) then mret (Some (ctx_Err ctx))
            else if bool_decide (path0 = path) then mret None
            else
              emit (Walking path0) ;;
              match err with
              | Some err0 => append_err err0 ;; mret None
              | None =>
                if IsDir info0 then
                  err0 ← call (Part000.walkDir fuel ctx path0 info0);
                  match (err0 : option error) with
                  | Some err1 => append_err err1 ;; mret None
                  | None => mret None
                  end
                else if maxFileSize <? Size info0 then
                  emit (Send largeFiles path0) ;; mret None
                else
                  emit (Send smallFiles path0) ;; mret None
              end) st0 = Some (r, st') ∧ sends_while_alive n st0 st').
  { intros (r & st' & E & H). exists r, st'. split; [exact E|].
    by eapply sends_while_alive_trans. }
  apply Walk_returns; [intros ???; apply sends_while_alive_trans|].
  clear st st0 H0. intros q c st Hq.
  unfold mbind at 1, W_bind at 1, poll.
  set (st1 := mkWstate (trace st) (S (polls st)) (errs st)).
  assert (sends_while_alive n st st1) as H1.
  { exists []. split; [by rewrite app_nil_r|]. change (sends []) with 0%nat.
    unfold st1. cbn [polls]. lia. }
  destruct (ctx_Done ctx (polls st)) eqn:Hdone; [by eexists _, _|].
  assert (polls st < n)%nat as Hlt.
  { unfold ctx_Done in Hdone. rewrite Hn in Hdone.
    apply bool_decide_eq_false in Hdone. lia. }
  case_bool_decide as Hroot; [by eexists _, _|].
  destruct (at_path_cases _ _ _ _ Hq) as [[? _]|[Hlen Hd]]; [done|].
  unfold mbind at 1, W_bind at 1, emit.
  set (st2 := mkWstate (trace st1 ++ [Walking q]) (polls st1) (errs st1)).
  assert (sends_while_alive n st st2) as H2.
  { exists [Walking q]. split; [done|]. change (sends [Walking q]) with 0%nat.
    unfold st2, st1. cbn [polls]. lia. }
  assert (∀ e s, sends_while_alive n st s →
            ∃ (r : option error) s', (append_err e ;; mret None) s = Some (r, s') ∧
                  sends_while_alive n st s') as Happ.
  { intros e s (t & Et & Ht). eexists _, _. split; [done|]. exists t. simpl. done. }
  destruct c as [size|listing entries|e]; cbn [stat_err IsDir Size].
  - (* a file *)
    destruct (maxFileSize <? size); unfold mbind at 1, W_bind at 1, emit;
      eexists _, _; (split; [done|]);
      [exists [Walking q; Send largeFiles q]|exists [Walking q; Send smallFiles q]];
      unfold st2, st1; cbn [trace polls errs];
      (split; [by rewrite <- app_assoc|]);
      [change (sends [Walking q; Send largeFiles q]) with 1%nat
      |change (sends [Walking q; Send smallFiles q]) with 1%nat]; lia.
  - (* a directory *)
    destruct listing as [err|]; [exact (Happ err st2 H2)|].
    unfold mbind at 1, W_bind at 1, call.
    destruct (IH ctx q (Dir None entries) st2 n Hn) as (r & st3 & -> & H3).
    { simpl in Hd |- *. lia. }
    { lia. }
    set (st4 := mkWstate (trace st3) (polls st3) (errs st2)).
    assert (sends_while_alive n st st4) as H4.
    { eapply sends_while_alive_trans; [exact H2|]. exact H3. }
    destruct r as [err|]; [exact (Happ err st4 H4)|by eexists _, _].
  - (* Lstat failed *)
    exact (Happ e st2 H2).
Qed.

(** X15.  [walkDir] sends only after a poll that found the context
    alive: under a context that fires at poll [n], a walk started after
    [polls st] polls makes at most [n - polls st] sends. *)
Theorem Part000_sends_before_cancellation fuel ctx path info st n :
  fires_at ctx = Some n →
  (0 < fuel)%nat → (depth info ≤ fuel)%nat →
  ∃ r t st',
    Part000.walkDir fuel ctx path info st = Some (r, st') ∧
    trace st' = trace st ++ t ∧
    (sends t ≤ n - polls st)%nat.
Proof.
  intros Hn Hpos Hdepth.
  destruct (walkDir_sends_while_alive fuel ctx path info st n Hn Hpos Hdepth)
    as (r & st' & E & t & Ht & Hs).
  exists r, t, st'. split; [done|]. split; [done|]. lia.
Qed.

Lemma Part000_sends_before_cancellation_witness :
  ∃ r t st',
    Part000.walkDir 3 (mkContext (Some 4%nat) context_Canceled) "/r" nested init =
      Some (r, st') ∧
    trace st' = trace init ++ t ∧
    (sends t ≤ 4 - polls init)%nat.
Proof.
  apply (Part000_sends_before_cancellation 3 (mkContext (Some 4%nat) context_Canceled)
           "/r" nested init 4).
  - reflexivity.
  - lia.
  - vm_compute. lia.
Defined.

(** ** What a walk that is not cancelled finds *)

Lemma readable_path_first root info p n :
  readable_path root info p n →
  (p = root ∧ n = info) ∨
  ∃ entries name c,
    info = Dir None entries ∧ (name, c) ∈ entries ∧
    readable_path (filepath.Join root name) c p n.
Proof.
  induction 1 as [|p entries name c Hp IH Hin]; [by left|right].
  destruct IH as [[-> <-]|(es & name' & c' & -> & Hin' & Hp')].
  - exists entries, name, c. split; [done|]. split; [done|]. constructor.
  - exists es, name', c'. split; [done|]. split; [done|].
    by eapply readable_entry.
Qed.

Lemma readable_path_at_path root info p n :
  readable_path root info p n → at_path root info p n.
Proof. induction 1; [constructor|by eapply at_entry]. Qed.

Section walk_covers.
Context (root : string) (info : node).
Context (fn : filepath.WalkFunc) (P : string → Prop).
Hypothesis fn_covers :
  ∀ q c st, at_path root info q c →
    ∃ st' t, fn q c (stat_err c) st = Some (None, st') ∧
             trace st' = trace st ++ t ∧
             ∀ size, c = File size → P q → Send (classify size) q ∈ t.

Lemma visit_covers c :
  ∀ q st, at_path root info q c →
    ∃ st' t, visit q c fn st = Some (None, st') ∧
             trace st' = trace st ++ t ∧
             ∀ p size, readable_path q c p (File size) → P p →
                       Send (classify size) p ∈ t.
Proof.
  induction c as [size|e|listing entries IH] using node_induction; intros q st Hq.
  - destruct (fn_covers q (File size) st Hq) as (st' & t & E & Ht & Hc).
    exists st', t. split; [exact E|]. split; [done|].
    intros p size' Hp HP.
    destruct (readable_path_first _ _ _ _ Hp) as [[-> [= ->]]|(? & ? & ? & ? & _)];
      [|done]. by apply Hc.
  - destruct (fn_covers q (NoStat e) st Hq) as (st' & t & E & Ht & Hc).
    exists st', t. split; [exact E|]. split; [done|].
    intros p size' Hp HP.
    destruct (readable_path_first _ _ _ _ Hp) as [[_ ?]|(? & ? & ? & ? & _)]; done.
  - simpl. unfold mbind, W_bind at 1.
    destruct (fn_covers q (Dir listing entries) st Hq) as (st1 & t1 & E1 & Ht1 & _).
    simpl stat_err in E1. rewrite E1.
    destruct listing as [err|].
    { exists st1, t1. split; [done|]. split; [done|].
      intros p size Hp HP.
      destruct (readable_path_first _ _ _ _ Hp) as [[_ ?]|(? & ? & ? & ? & _)]; done. }
    change (bool_decide (None ≠ None) || bool_decide (@None error ≠ None)) with false.
    cbv iota.
    assert (∀ st1,
      ∃ st' t,
        (fix range (names : list (string * node)) : W (option error) :=
           match names with
           | [] => mret None
           | (name, fileInfo) :: names' =>
             let filename := filepath.Join q name in
             match fileInfo with
             | NoStat e =>
               err ← fn filename fileInfo (Some e);
               if bool_decide (err ≠ None)
                  && bool_decide (err ≠ Some filepath_SkipDir)
               then mret err
               else range names'
             | _ =>
               err ← filepath.walk filename fileInfo fn;
               if bool_decide (err ≠ None)
                  && (negb (IsDir fileInfo) || bool_decide (err ≠ Some filepath_SkipDir))
               then mret err
               else range names'
             end
           end) entries st1 = Some (None, st') ∧
        trace st' = trace st1 ++ t ∧
        ∀ name c p size, (name, c) ∈ entries →
          readable_path (filepath.Join q name) c p (File size) → P p →
          Send (classify size) p ∈ t) as Hloop.
    { assert (∀ name c, (name, c) ∈ entries →
                at_path root info (filepath.Join q name) c) as Hsub.
      { intros name c Hin. by eapply at_entry. }
      clear E1 Ht1 st1 t1 st Hq.
      induction entries as [|[name c] entries IHe]; intros st1.
      - exists st1, []. split; [done|]. split; [by rewrite app_nil_r|].
        by intros ???? ?%elem_of_nil.
      - apply Forall_cons in IH as [IHc IH].
        specialize (IHe IH (λ n' c' Hin, Hsub n' c' (list_elem_of_further _ _ _ Hin))).
        destruct (IHc (filepath.Join q name) st1 (Hsub name c (list_elem_of_here _ _)))
          as (st2 & t2 & E2 & Ht2 & Hc2).
        destruct (IHe st2) as (st3 & t3 & E3 & Ht3 & Hc3).
        exists st3, (t2 ++ t3). split; [|split].
        + destruct c as [size|l' es'|e]; simpl in E2 |- *;
            unfold mbind, W_bind at 1; unfold mbind in E2; rewrite E2; exact E3.
        + by rewrite Ht3, Ht2, app_assoc.
        + intros name' c' p size [[= -> ->]|Hin]%elem_of_cons Hp HP.
          * apply elem_of_app. left. by eapply Hc2.
          * apply elem_of_app. right. by eapply Hc3. }
    destruct (Hloop st1) as (st' & t & E & Ht & Hc).
    exists st', (t1 ++ t). split; [exact E|]. split; [by rewrite Ht, Ht1, app_assoc|].
    intros p size Hp HP.
    destruct (readable_path_first _ _ _ _ Hp) as [[_ ?]|(es & name & c & [= <-] & Hin & Hp')];
      [done|].
    apply elem_of_app. right. by eapply Hc.
Qed.

Lemma Walk_covers st :
  ∃ st' t, filepath.Walk root info fn st = Some (None, st') ∧
           trace st' = trace st ++ t ∧
           ∀ p size, readable_path root info p (File size) → P p →
                     Send (classify size) p ∈ t.
Proof.
  unfold filepath.Walk. unfold mbind, W_bind. fold (visit root info fn).
  destruct (visit_covers info root st (at_root _ _)) as (st' & t & -> & Ht & Hc).
  by exists st', t.
Qed.
End walk_covers.

Lemma walkDir_covers fuel :
  ∀ ctx path info st,
    fires_at ctx = None →
    (0 < fuel)%nat → (depth info ≤ fuel)%nat →
    ∃ st' t,
      Part000.walkDir fuel ctx path info st = Some (None, st') ∧
      trace st' = trace st ++ t ∧
      ∀ p size, readable_path path info p (File size) → p ≠ path →
                Send (classify size) p ∈ t.
Proof.
  induction fuel as [|fuel IH]; intros ctx path info st Hctx Hpos Hdepth; [lia|].
  simpl Part000.walkDir. unfold mbind at 1, W_bind at 1, emit.
  set (st0 := mkWstate (trace st ++ [Enter path]) (polls st) (errs st)).
  cut (∃ st' t, filepath.Walk path info
         (λ path0 info0 err,
            fired ← poll ctx;
            if (fired : bool) then mret (Some (ctx_Err ctx))
            else if bool_decide (path0 = path) then mret None
            else
              emit (Walking path0) ;;
              match err with
              | Some err0 => append_err err0 ;; mret None
              | None =>
                if IsDir info0 then
                  err0 ← call (Part000.walkDir fuel ctx path0 info0);
                  match (err0 : option error) with
                  | Some err1 => append_err err1 ;; mret None
                  | None => mret None
                  end
                else if maxFileSize <? Size info0 then
                  emit (Send largeFiles path0) ;; mret None
                else
                  emit (Send smallFiles path0) ;; mret None
              end) st0 = Some (None, st') ∧
         trace st' = trace st0 ++ t ∧
         ∀ p size, readable_path path info p (File size) → p ≠ path →
                   Send (classify size) p ∈ t).
  { intros (st' & t & E & Ht & Hc). exists st', (Enter path :: t).
    split; [exact E|]. split.
    - rewrite Ht. unfold st0. cbn [trace]. by rewrite <- app_assoc.
    - intros p size Hp Hne. right. by apply Hc. }
  apply (Walk_covers path info _ (λ p, p ≠ path)).
  clear st st0. intros q c st Hq.
  unfold mbind at 1, W_bind at 1, poll.
  replace (ctx_Done ctx (polls st)) with false by (unfold ctx_Done; by rewrite Hctx).
  set (st1 := mkWstate (trace st) (S (polls st)) (errs st)).
  case_bool_decide as Hroot.
  { exists st1, []. split; [done|]. split; [by rewrite app_nil_r|]. by intros ? _ ?. }
  destruct (at_path_cases _ _ _ _ Hq) as [[? _]|[Hlen Hd]]; [done|].
  unfold mbind at 1, W_bind at 1, emit.
  set (st2 := mkWstate (trace st1 ++ [Walking q]) (polls st1) (errs st1)).
  destruct c as [size|listing entries|e]; cbn [stat_err IsDir Size].
  - destruct (maxFileSize <? size) eqn:Hsize; unfold mbind at 1, W_bind at 1, emit;
      eexists _, _; (split; [done|]); unfold st2, st1; cbn [trace];
      (split; [by rewrite <- app_assoc|]);
      intros size' [= <-] _; unfold classify; rewrite Hsize;
      apply list_elem_of_further, list_elem_of_here.
  - destruct listing as [err|].
    { eexists _, [Walking q]. split; [done|]. split; [done|]. by intros ? ? ?. }
    unfold mbind at 1, W_bind at 1, call.
    destruct (IH ctx q (Dir None entries) st2 Hctx) as (st3 & t3 & -> & Ht3 & _).
    { simpl in Hd |- *. lia. }
    { lia. }
    eexists _, (Walking q :: t3). split; [done|]. split; [|by intros ? ? ?].
    cbn [trace]. rewrite Ht3. unfold st2, st1. cbn [trace]. by rewrite <- app_assoc.
  - eexists _, [Walking q]. split; [done|]. split; [done|]. by intros ? ? ?.
Qed.

(** X16.  Under a context that does not fire, [walk] of part_000 returns
    nil and, before it closes the channels, has sent every file that lies
    strictly below the root through directories that can be listed, on
    the channel chosen by its size. *)
Theorem Part000_walk_finds_every_file fuel ctx path info st :
  fires_at ctx = None →
  (0 < fuel)%nat → (depth info ≤ fuel)%nat →
  ∃ st' t,
    Part000.walk fuel ctx path info st = Some (None, st') ∧
    trace st' = trace st ++ t ++ [Close largeFiles; Close smallFiles] ∧
    ∀ p size, readable_path path info p (File size) → p ≠ path →
              Send (classify size) p ∈ t.
Proof.
  intros Hctx Hpos Hdepth. unfold Part000.walk, mbind, W_bind, call, emit.
  destruct (walkDir_covers fuel ctx path info st Hctx Hpos Hdepth)
    as (st' & t & -> & Ht & Hc).
  eexists _, t. split; [done|]. split; [|done].
  cbn [trace]. by rewrite Ht, <- !app_assoc.
Qed.

Lemma Part000_walk_finds_every_file_witness :
  ∃ st' t,
    Part000.walk 3 background "/r" nested init = Some (None, st') ∧
    trace st' = trace init ++ t ++ [Close largeFiles; Close smallFiles] ∧
    ∀ p size, readable_path "/r" nested p (File size) → p ≠ "/r"%string →
              Send (classify size) p ∈ t.
Proof.
  apply (Part000_walk_finds_every_file 3 background "/r" nested init).
  - reflexivity.
  - lia.
  - vm_compute. lia.
Defined.

(** ** The errors a walk returns *)

Section walk_result.
Context (fn : filepath.WalkFunc) (Q : option error → Prop).
Hypothesis Q_nil : Q None.
Hypothesis fn_result : ∀ q c e st r st', fn q c e st = Some (r, st') → Q r.

Lemma visit_result c :
  ∀ q st r st', visit q c fn st = Some (r, st') → Q r.
Proof.
  induction c as [size|e|listing entries IH] using node_induction;
    intros q st r st'; simpl; [apply fn_result..|].
  unfold mbind, W_bind at 1.
  destruct (fn q (Dir listing entries) listing st) as [[err1 st1]|] eqn:E1; [|done].
  apply fn_result in E1.
  destruct (_ || _); [by intros [= <- <-]|]. clear E1 st.
  revert st1. induction entries as [|[name c] entries IHe]; intros st1.
  { by intros [= <- <-]. }
  apply Forall_cons in IH as [IHc IH]. specialize (IHe IH).
  specialize (IHc (filepath.Join q name) st1).
  destruct c as [size|l' es'|e]; simpl in IHc |- *; unfold mbind, W_bind at 1;
    unfold mbind in IHc;
    match goal with
    | |- context [match ?m st1 with _ => _ end] =>
      destruct (m st1) as [[err st2]|] eqn:E; [|done]
    end;
    specialize (IHc _ _ eq_refl);
    (destruct (_ && _); [by intros [= <- <-]|apply IHe]).
Qed.

Lemma Walk_result root info st r st' :
  filepath.Walk root info fn st = Some (r, st') → Q r.
Proof.
  unfold filepath.Walk. unfold mbind, W_bind. fold (visit root info fn).
  destruct (visit root info fn st) as [[err st1]|] eqn:E; [|done].
  apply visit_result in E. destruct (_ || _); by intros [= <- <-].
Qed.
End walk_result.

(** X14.  The errors of the entries are never returned by [walkDir]:
    with an allowance of the depth of the tree it returns nil, or the
    error of the context when the context fires. *)
Theorem Part000_walkDir_errors fuel ctx path info st :
  (0 < fuel)%nat → (depth info ≤ fuel)%nat →
  ∃ r st',
    Part000.walkDir fuel ctx path info st = Some (r, st') ∧
    (r = None ∨ r = Some (ctx_Err ctx) ∧ is_Some (fires_at ctx)).
Proof.
  intros Hpos Hdepth.
  destruct (walkDir_returns fuel ctx path info st Hpos Hdepth) as (r & st' & E & _).
  exists r, st'. split; [done|].
  destruct fuel as [|fuel]; [lia|]. simpl in E.
  unfold mbind at 1, W_bind at 1, emit in E.
  eapply (Walk_result _ (λ r, r = None ∨ r = Some (ctx_Err ctx) ∧ is_Some (fires_at ctx)));
    [by left| |exact E].
  clear. intros q c e st r st'. unfold mbind at 1, W_bind at 1, poll.
  destruct (ctx_Done ctx (polls st)) eqn:Hdone.
  { intros [= <- <-]. right. split; [done|]. unfold ctx_Done in Hdone.
    destruct (fires_at ctx); [eauto|done]. }
  case_bool_decide; [intros [= <- <-]; by left|].
  unfold mbind at 1, W_bind at 1, emit.
  destruct e as [err|]; [intros [= <- <-]; by left|].
  destruct (IsDir c).
  - unfold mbind at 1, W_bind at 1, call.
    destruct (Part000.walkDir _ _ _ _ _) as [[[err|] st1]|]; [| |done];
      intros [= <- <-]; by left.
  - destruct (_ <? _); intros [= <- <-]; by left.
Qed.

Lemma Part000_walkDir_errors_witness :
  ∃ r st',
    Part000.walkDir 2 background "/r" broken init = Some (r, st') ∧
    (r = None ∨ r = Some (ctx_Err background) ∧ is_Some (fires_at background)).
Proof.
  apply (Part000_walkDir_errors 2 background "/r" broken init).
  - lia.
  - vm_compute. lia.
Defined.

(** ** When [walk] of main.go returns *)

Lemma MainGo_walk_not_readable fuel path info st :
  ¬ readable_dir info →
  ∃ t,
    MainGo.walk (S fuel) path info st =
      Some (None, mkWstate (trace st ++ Enter path :: t ++ [Close largeFiles; Close smallFiles])
                           (polls st)
                           (errs st ++ match stat_err info with
                                       | Some e => [e]
                                       | None => []
                                       end)) ∧
    ∀ e, e ∈ t → e = Send largeFiles path ∨ e = Send smallFiles path.
Proof.
  intros Hinfo. destruct info as [size|[err|] entries|e]; [| |by destruct Hinfo|].
  - rewrite MainGo_walk_File.
    exists ((if maxFileSize <? size then [Send largeFiles path] else []) ++ [Send smallFiles path]).
    split; [simpl; by rewrite app_nil_r, <- !app_assoc|].
    intros e [He|He]%elem_of_app.
    + destruct (_ <? _); [|by apply elem_of_nil in He].
      apply list_elem_of_singleton in He. by left.
    + apply list_elem_of_singleton in He. by right.
  - exists []. split; [|by intros ? ?%elem_of_nil].
    simpl. unfold filepath.Walk, mbind, W_bind, emit. simpl.
    unfold mbind, W_bind, append_err, emit, mret, W_ret. simpl.
    by rewrite <- !app_assoc.
  - exists []. split; [|by intros ? ?%elem_of_nil].
    simpl. unfold filepath.Walk, mbind, W_bind, emit. simpl.
    unfold mbind, W_bind, append_err, emit, mret, W_ret. simpl.
    by rewrite <- !app_assoc.
Qed.

(** X17.  [walk] of main.go returns exactly when the root is not a
    directory that can be listed; it then returns nil, has sent nothing
    but the root itself, has recorded the error of the root in its own
    [errs], and closes each channel once, last. *)
Theorem MainGo_walk_returns_iff fuel path info st :
  (is_Some (MainGo.walk (S fuel) path info st) ↔ ¬ readable_dir info) ∧
  (¬ readable_dir info →
   ∃ t,
     MainGo.walk (S fuel) path info st =
       Some (None, mkWstate (trace st ++ Enter path :: t ++ [Close largeFiles; Close smallFiles])
                            (polls st)
                            (errs st ++ match stat_err info with
                                        | Some e => [e]
                                        | None => []
                                        end)) ∧
     ∀ e, e ∈ t → e = Send largeFiles path ∨ e = Send smallFiles path).
Proof.
  split; [|apply MainGo_walk_not_readable]. split.
  - intros [x Hx] Hdir. destruct info as [|[|] entries|]; try done.
    by rewrite MainGo_walk_Dir in Hx.
  - intros Hinfo. destruct (MainGo_walk_not_readable fuel path info st Hinfo) as (t & -> & _).
    done.
Qed.

(** ** A worker on the small queue *)

Lemma replaceInFile_local (fs1 fs2 : filesystem) path search replace :
  fs1 !! path = fs2 !! path →
  (replaceInFile path search replace fs1).1 = (replaceInFile path search replace fs2).1 ∧
  (replaceInFile path search replace fs1).2 !! path =
  (replaceInFile path search replace fs2).2 !! path.
Proof.
  intros H. unfold replaceInFile, os.OpenFile_RDWR, os.read, os.WriteFile.
  rewrite <- H. destruct (fs1 !! path) as [[c|]|] eqn:E; simpl.
  - split; [done|]. by rewrite !lookup_insert_eq.
  - split; [done|]. by rewrite E.
  - split; [done|]. by rewrite E.
Qed.

Lemma replaceInFile_other (fs : filesystem) path search replace q :
  q ≠ path → (replaceInFile path search replace fs).2 !! q = fs !! q.
Proof.
  intros Hq. unfold replaceInFile, os.OpenFile_RDWR, os.read, os.WriteFile.
  destruct (fs !! path) as [[content|]|]; simpl; try done.
  by rewrite lookup_insert_ne.
Qed.

Lemma smallFilesWorker_alive ctx search replace paths :
  fires_at ctx = None →
  NoDup paths →
  ∀ k logged errs (fs : filesystem),
    ∃ fs',
      smallFilesWorker ctx search replace paths k logged errs fs =
        (logged ++ paths,
         errs ++ omap (λ p, (replaceInFile p search replace fs).1) paths,
         fs') ∧
      (∀ p, p ∈ paths → fs' !! p = (replaceInFile p search replace fs).2 !! p) ∧
      (∀ q, q ∉ paths → fs' !! q = fs !! q).
Proof.
  intros Hctx. induction 1 as [|path paths Hnotin Hnd IH]; intros k logged errs fs.
  - exists fs. simpl. rewrite !app_nil_r. split; [done|]. split; [|done].
    by intros ? ?%elem_of_nil.
  - cbn [smallFilesWorker].
    replace (ctx_Done ctx k) with false by (unfold ctx_Done; by rewrite Hctx).
    destruct (replaceInFile path search replace fs) as [err fs1] eqn:E.
    destruct (IH (S k) (logged ++ [path])
                 (match err with Some e => errs ++ [e] | None => errs end) fs1)
      as (fs' & -> & Hin & Hout).
    assert (∀ p, p ∈ paths → fs1 !! p = fs !! p) as Hsame.
    { intros p Hp. replace fs1 with (replaceInFile path search replace fs).2 by (by rewrite E).
      apply replaceInFile_other. by intros ->. }
    assert (omap (λ p, (replaceInFile p search replace fs1).1) paths =
            omap (λ p, (replaceInFile p search replace fs).1) paths) as Hmap.
    { clear -Hsame. induction paths as [|p paths IHp]; [done|].
      assert (omap (λ p, (replaceInFile p search replace fs1).1) paths =
              omap (λ p, (replaceInFile p search replace fs).1) paths) as Hrest.
      { apply IHp. intros p' Hp'. apply Hsame. by right. }
      destruct (replaceInFile_local fs1 fs p search replace) as [Hp _].
      { apply Hsame. left. }
      unfold omap in *. cbn [list_omap]. by rewrite Hp, Hrest. }
    exists fs'. split; [|split].
    + rewrite Hmap. unfold omap. cbn [list_omap]. rewrite E. cbn [fst].
      rewrite <- app_assoc. destruct err; simpl; by rewrite <- ?app_assoc.
    + intros p [->|Hp]%elem_of_cons.
      * rewrite Hout by done. by rewrite E.
      * rewrite Hin by done.
        apply (replaceInFile_local fs1 fs p search replace), Hsame, Hp.
    + intros q [Hq Hq']%not_elem_of_cons. rewrite Hout by done.
      replace fs1 with (replaceInFile path search replace fs).2 by (by rewrite E).
      by apply replaceInFile_other.
Qed.

(** X19.  A worker on the small queue under a context that does not
    fire processes every one of its (distinct) paths independently: each
    path ends as [replaceInFile] alone would leave it, a failure on one
    path is recorded and does not stop the others, and other paths are
    untouched. *)
Theorem smallFilesWorker_processes_all ctx search replace paths errs (fs : filesystem) :
  fires_at ctx = None →
  NoDup paths →
  ∃ fs',
    smallFilesWorker ctx search replace paths 0 [] errs fs =
      (paths, errs ++ omap (λ p, (replaceInFile p search replace fs).1) paths, fs') ∧
    (∀ p, p ∈ paths → fs' !! p = (replaceInFile p search replace fs).2 !! p) ∧
    (∀ q, q ∉ paths → fs' !! q = fs !! q).
Proof.
  intros Hctx Hnd.
  destruct (smallFilesWorker_alive ctx search replace paths Hctx Hnd 0%nat [] errs fs)
    as (fs' & E & H). by exists fs'.
Qed.

Lemma smallFilesWorker_processes_all_witness :
  ∃ fs',
    smallFilesWorker background (B "o") (B "0") ["/d/a"; "/d/sub"; "/d/gone"; "/d/c"]%string
      0 [] [] two_files =
      (["/d/a"; "/d/sub"; "/d/gone"; "/d/c"]%string,
       [] ++ omap (λ p, (replaceInFile p (B "o") (B "0") two_files).1)
                  ["/d/a"; "/d/sub"; "/d/gone"; "/d/c"]%string, fs') ∧
    (∀ p, p ∈ ["/d/a"; "/d/sub"; "/d/gone"; "/d/c"]%string →
          fs' !! p = (replaceInFile p (B "o") (B "0") two_files).2 !! p) ∧
    (∀ q, q ∉ ["/d/a"; "/d/sub"; "/d/gone"; "/d/c"]%string → fs' !! q = two_files !! q).
Proof.
  apply (smallFilesWorker_processes_all background (B "o") (B "0")
           ["/d/a"; "/d/sub"; "/d/gone"; "/d/c"]%string [] two_files).
  - reflexivity.
  - compute_done.
Defined.

Lemma smallFilesWorker_fired ctx search replace paths n :
  fires_at ctx = Some n →
  ∀ k logged errs (fs : filesystem),
    (k ≤ n)%nat → (n - k < length paths)%nat →
    smallFilesWorker ctx search replace paths k logged errs fs =
    let '(logged', errs', fs') :=
      smallFilesWorker (mkContext None (cause ctx)) search replace
                       (take (n - k) paths) k logged errs fs in
    (logged' ++ take 1 (drop (n - k) paths), errs' ++ [ctx_Err ctx], fs').
Proof.
  intros Hn. induction paths as [|path paths IH]; intros k logged errs fs Hk Hlen.
  - simpl in Hlen. lia.
  - cbn [smallFilesWorker]. unfold ctx_Done at 1. rewrite Hn.
    destruct (decide (n = k)) as [->|Hne].
    + rewrite bool_decide_eq_true_2 by lia. rewrite Nat.sub_diag. simpl. done.
    + rewrite bool_decide_eq_false_2 by lia.
      replace (n - k)%nat with (S (n - S k)) by lia.
      cbn [firstn skipn smallFilesWorker].
      change (ctx_Done (mkContext None (cause ctx)) k) with false. cbv iota.
      destruct (replaceInFile path search replace fs) as [err fs1].
      rewrite IH; [done|lia|]. simpl in Hlen. lia.
Qed.

Lemma smallFilesWorker_logged ctx search replace paths :
  fires_at ctx = None →
  ∀ k logged errs (fs : filesystem),
    (smallFilesWorker ctx search replace paths k logged errs fs).1.1 = logged ++ paths.
Proof.
  intros Hctx. induction paths as [|path paths IH]; intros k logged errs fs.
  - simpl. by rewrite app_nil_r.
  - cbn [smallFilesWorker].
    replace (ctx_Done ctx k) with false by (unfold ctx_Done; by rewrite Hctx).
    destruct (replaceInFile path search replace fs) as [err fs1].
    rewrite IH. by rewrite <- app_assoc.
Qed.

Lemma take_next {A} (l : list A) n :
  take n l ++ take 1 (drop n l) = take (S n) l.
Proof.
  revert n. induction l as [|x l IH]; intros [|n]; simpl; try done.
  by rewrite <- IH.
Qed.

Lemma smallFilesWorker_frame ctx search replace paths :
  ∀ k logged errs (fs : filesystem) q,
    q ∉ paths →
    (smallFilesWorker ctx search replace paths k logged errs fs).2 !! q = fs !! q.
Proof.
  induction paths as [|path paths IH]; intros k logged errs fs q Hq; [done|].
  apply not_elem_of_cons in Hq as [Hne Hq]. cbn [smallFilesWorker].
  destruct (ctx_Done ctx k); [done|].
  destruct (replaceInFile path search replace fs) as [err fs1] eqn:E.
  rewrite IH by done.
  replace fs1 with (replaceInFile path search replace fs).2 by (by rewrite E).
  by apply replaceInFile_other.
Qed.

(** X18.  A worker on the small queue under a context that fires at
    poll [n], with more than [n] paths to process: it processes the first
    [n] paths as under a context that never fires, logs one path more,
    appends the error of the context and stops; paths beyond the first
    [n] are untouched. *)
Theorem smallFilesWorker_cancelled ctx search replace paths errs (fs : filesystem) n :
  fires_at ctx = Some n →
  (n < length paths)%nat →
  ∃ errs' fs',
    smallFilesWorker (mkContext None (cause ctx)) search replace
                     (take n paths) 0 [] errs fs = (take n paths, errs', fs') ∧
    smallFilesWorker ctx search replace paths 0 [] errs fs =
      (take (S n) paths, errs' ++ [ctx_Err ctx], fs') ∧
    ∀ q, q ∉ take n paths → fs' !! q = fs !! q.
Proof.
  intros Hn Hlen.
  rewrite (smallFilesWorker_fired ctx search replace paths n Hn 0%nat [] errs fs) by lia.
  rewrite Nat.sub_0_r.
  pose proof (smallFilesWorker_logged (mkContext None (cause ctx)) search replace
                (take n paths) eq_refl 0%nat [] errs fs) as Hlog.
  pose proof (smallFilesWorker_frame (mkContext None (cause ctx)) search replace
                (take n paths) 0%nat [] errs fs) as Hframe.
  destruct (smallFilesWorker _ _ _ (take n paths) _ _ _ _) as [[logged' errs'] fs'].
  simpl in Hlog, Hframe. subst logged'. exists errs', fs'.
  split; [done|]. split; [|done]. do 2 f_equal. apply take_next.
Qed.

Lemma smallFilesWorker_cancelled_witness :
  ∃ errs' fs',
    smallFilesWorker (mkContext None context_Canceled) (B "o") (B "0")
                     (take 1 ["/d/a"; "/d/c"]%string) 0 [] [] two_files =
      (take 1 ["/d/a"; "/d/c"]%string, errs', fs') ∧
    smallFilesWorker (mkContext (Some 1%nat) context_Canceled) (B "o") (B "0")
                     ["/d/a"; "/d/c"]%string 0 [] [] two_files =
      (take 2 ["/d/a"; "/d/c"]%string, errs' ++ [context_Canceled], fs') ∧
    ∀ q, q ∉ take 1 ["/d/a"; "/d/c"]%string → fs' !! q = two_files !! q.
Proof.
  apply (smallFilesWorker_cancelled (mkContext (Some 1%nat) context_Canceled)
           (B "o") (B "0") ["/d/a"; "/d/c"]%string [] two_files 1).
  - reflexivity.
  - simpl. lia.
Defined.

(** ** Examples of the walk of part_000 *)

Lemma Part000_walk_closes_once_witness :
  ∃ err t n,
    Part000.walk 3 background "/r" nested init =
      Some (err, mkWstate (trace init ++ t ++ [Close largeFiles; Close smallFiles]) n
                          (errs init)) ∧
    Forall (walk_event "/r" nested) t ∧
    ∀ q, count_event (Close q) (t ++ [Close largeFiles; Close smallFiles]) = 1%nat.
Proof.
  apply (Part000_walk_closes_once 3 background "/r" nested init).
  - lia.
  - vm_compute. lia.
Defined.

Lemma nested_well_formed : well_formed nested.
Proof.
  unfold nested.
  repeat (apply wf_Dir;
          [repeat constructor; by intros ?%elem_of_nil
          |intros name c [[= -> ->]|[]%elem_of_nil]%elem_of_cons;
             split; [vm_compute; by intros [|[]%elem_of_nil]%elem_of_cons|]]).
  apply wf_File.
Qed.

Lemma Part000_never_both_queues_witness :
  ∃ r t st',
    Part000.walkDir 3 background "/r" nested init = Some (r, st') ∧
    trace st' = trace init ++ t ∧
    ∀ p, ¬ (Send largeFiles p ∈ t ∧ Send smallFiles p ∈ t).
Proof.
  apply (Part000_never_both_queues 3 background "/r" nested init).
  - apply nested_well_formed.
  - lia.
  - vm_compute. lia.
Defined.
